(** * Satisfier: a shallow embedding of the CNF satisfiability engine

    The development follows [satisfier.go] (the recursive engine: [assign],
    [UnitPropagation], [PureLiteralElimination], [DPLL], [parseCNF]) and the
    later revision of the same program that replaces the search by
    [iterativeDPLL] over an explicit work stack.

    Conventions.
    - A Go [int] is a 64-bit two's-complement integer.  It is a [Z] here, and
      the only arithmetic the engine performs on literals, unary minus, is
      written with its wrap-around ([neg]).
    - [Clause = []int] and [CNF = []Clause] are lists.
    - [map[int]bool], [map[string]int], [map[string]string] are [gmap]s.  A Go
      map is a reference: a callee's writes are seen by the caller.  Every
      function that writes to a map therefore returns the map it leaves
      behind, and the caller continues with that one. *)

From Stdlib Require Import ZArith List Bool Lia Permutation Ascii.
From stdpp Require Import base option list gmap strings fin_maps fin_sets.

#[local] Set Warnings "-clear-no-such-hyp".

Local Open Scope Z_scope.

(** ** Machine integers *)

Definition int_min : Z := - 2 ^ 63.
Definition int_max : Z := 2 ^ 63 - 1.

(** The values a Go [int] can hold. *)
Definition is_int (z : Z) : Prop := int_min <= z <= int_max.

(** Two's-complement wrap-around of a mathematical result. *)
Definition wrap (z : Z) : Z := (z + 2 ^ 63) mod 2 ^ 64 - 2 ^ 63.

(** Go's unary minus on [int]. *)
Definition neg (x : Z) : Z := wrap (- x).

(** [func abs(x int) int]. *)
Definition abs (x : Z) : Z := if x <? 0 then neg x else x.

(** ** Clauses and formulas *)

Definition Clause := list Z.
Definition CNF := list Clause.

(** ** [assign] *)

(** The inner loop of [assign] over one clause.  [None] is [skipClause]: the
    loop met the literal that [(variable, value)] makes true and broke out.
    Otherwise the result is [newClause], the literals that are neither
    [variable] nor [-variable], in their order. *)
Fixpoint assign_clause (variable : Z) (value : bool) (clause : Clause)
  : option Clause :=
  match clause with
  | [] => Some []
  | literal :: rest =>
      if ((literal =? variable) && value)
         || ((literal =? neg variable) && negb value)
      then None
      else
        match assign_clause variable value rest with
        | None => None
        | Some newClause =>
            if negb (literal =? variable) && negb (literal =? neg variable)
            then Some (literal :: newClause)
            else Some newClause
        end
  end.

(** [func assign(cnf CNF, variable int, value bool) CNF]. *)
Fixpoint assign (cnf : CNF) (variable : Z) (value : bool) : CNF :=
  match cnf with
  | [] => []
  | clause :: rest =>
      match assign_clause variable value clause with
      | None => assign rest variable value
      | Some newClause => newClause :: assign rest variable value
      end
  end.

(** ** [UnitPropagation] *)

(** The scan [for _, clause := range cnf { if len(clause) == 1 ... break }]:
    the literal of the first clause of length one. *)
Fixpoint find_unit (cnf : CNF) : option Z :=
  match cnf with
  | [] => None
  | clause :: rest =>
      match clause with
      | [unit] => Some unit
      | _ => find_unit rest
      end
  end.

(** The outer [for { ... }] of [UnitPropagation].  [fuel] bounds the number
    of times the loop body runs; [None] means the bound was reached. *)
Fixpoint unit_loop (fuel : nat) (cnf : CNF) (assignment : gmap Z bool)
  : option (CNF * gmap Z bool) :=
  match fuel with
  | O => None
  | S fuel' =>
      match find_unit cnf with
      | None => Some (cnf, assignment)
      | Some unit =>
          let value := 0 <? unit in
          let variable := abs unit in
          unit_loop fuel' (assign cnf variable value)
                    (<[variable := value]> assignment)
      end
  end.

(** The final scan of [UnitPropagation]: [false] when some clause is empty. *)
Definition no_empty_clause (cnf : CNF) : bool :=
  forallb (fun clause => negb (length clause =? 0)%nat) cnf.

(** [func UnitPropagation(cnf CNF, assignment map[int]bool) (CNF, bool)],
    together with the map it leaves behind. *)
Definition UnitPropagation (fuel : nat) (cnf : CNF) (assignment : gmap Z bool)
  : option (CNF * bool * gmap Z bool) :=
  match unit_loop fuel cnf assignment with
  | None => None
  | Some (cnf', assignment') =>
      Some (cnf', no_empty_clause cnf', assignment')
  end.

(** ** [PureLiteralElimination] *)

(** Reading a Go [map[int]int] at a key it does not hold gives 0. *)
Definition count_of (literalCount : gmap Z Z) (literal : Z) : Z :=
  default 0 (literalCount !! literal).

(** [literalCount[literal]++] for every literal of every clause. *)
Definition count_clause (literalCount : gmap Z Z) (clause : Clause)
  : gmap Z Z :=
  foldl (fun m literal => <[literal := wrap (count_of m literal + 1)]> m)
        literalCount clause.

Definition literal_counts (cnf : CNF) : gmap Z Z :=
  foldl count_clause ∅ cnf.

(** The body of [for literal, count := range literalCount].  The test reads
    [literalCount], which is not updated while the formula shrinks. *)
Definition pure_step (literalCount : gmap Z Z)
    (st : CNF * gmap Z bool) (entry : Z * Z) : CNF * gmap Z bool :=
  let '(cnf, assignment) := st in
  let '(literal, count) := entry in
  if (0 <? count) && (count_of literalCount (neg literal) =? 0)
  then
    let value := 0 <? literal in
    let variable := abs literal in
    (assign cnf variable value, <[variable := value]> assignment)
  else st.

(** The second loop of [PureLiteralElimination], run over the entries of
    [literalCount] in the order [entries]. *)
Definition pure_loop (literalCount : gmap Z Z) (entries : list (Z * Z))
    (cnf : CNF) (assignment : gmap Z bool) : CNF * gmap Z bool :=
  foldl (pure_step literalCount) (cnf, assignment) entries.

(** [func PureLiteralElimination(cnf CNF, assignment map[int]bool) CNF].
    Go leaves the order of [range] over a map unspecified; the order used
    here is [map_to_list]'s, and [pure_loop_order] below shows that every
    other order gives the same formula and the same map. *)
Definition PureLiteralElimination (cnf : CNF) (assignment : gmap Z bool)
  : CNF * gmap Z bool :=
  let literalCount := literal_counts cnf in
  pure_loop literalCount (map_to_list literalCount) cnf assignment.

(** ** [DPLL] *)

(** [for _, clause := range cnf { if len(clause) > 0 { variable =
    abs(clause[0]); break } }], with [variable] starting at 0. *)
Fixpoint select_variable (cnf : CNF) : Z :=
  match cnf with
  | [] => 0
  | clause :: rest =>
      match clause with
      | [] => select_variable rest
      | literal :: _ => abs literal
      end
  end.

(** [func DPLL(cnf CNF, assignment map[int]bool) (bool, map[int]bool)].
    [depth] bounds the nesting of recursive calls and [loops] the iterations
    of each unit-propagation loop.  The map is one object shared by the whole
    search: the call for [value = false] receives the map as the failed call
    for [value = true] left it. *)
Fixpoint DPLL (loops depth : nat) (cnf : CNF) (assignment : gmap Z bool)
  : option (bool * gmap Z bool) :=
  match depth with
  | O => None
  | S depth' =>
      match UnitPropagation loops cnf assignment with
      | None => None
      | Some (cnf1, ok, assignment1) =>
          if negb ok then Some (false, assignment1)
          else
            let '(cnf2, assignment2) :=
              PureLiteralElimination cnf1 assignment1 in
            if (length cnf2 =? 0)%nat then Some (true, assignment2)
            else
              let variable := select_variable cnf2 in
              match DPLL loops depth' (assign cnf2 variable true)
                         (<[variable := true]> assignment2) with
              | None => None
              | Some (true, result) => Some (true, result)
              | Some (false, assignment3) =>
                  DPLL loops depth' (assign cnf2 variable false)
                       (<[variable := false]> assignment3)
              end
      end
  end.

(** ** [iterativeDPLL] *)

(** [func copyAssignment(original map[int]bool) map[int]bool]: a fresh map
    filled entry by entry. *)
Definition copyAssignment (original : gmap Z bool) : gmap Z bool :=
  map_fold (fun key value copy => <[key := value]> copy) ∅ original.

(** The loop [for len(stack) > 0 { ... }] of [iterativeDPLL].  The Go slice
    [stack] is a list whose head is the slice's last element, the one the
    loop pops.  [fuel] bounds the number of states popped.  [assignment] is
    the caller's map, returned untouched when the stack runs empty. *)
Fixpoint iterative_loop (loops fuel : nat)
    (stack : list (CNF * gmap Z bool)) (assignment : gmap Z bool)
  : option (bool * gmap Z bool) :=
  match fuel with
  | O => None
  | S fuel' =>
      match stack with
      | [] => Some (false, assignment)
      | (cnf, state_assignment) :: stack' =>
          match UnitPropagation loops cnf state_assignment with
          | None => None
          | Some (cnf1, ok, assignment1) =>
              if negb ok then iterative_loop loops fuel' stack' assignment
              else
                let '(cnf2, assignment2) :=
                  PureLiteralElimination cnf1 assignment1 in
                if (length cnf2 =? 0)%nat then Some (true, assignment2)
                else
                  let variable := select_variable cnf2 in
                  iterative_loop loops fuel'
                    ((assign cnf2 variable true, copyAssignment assignment2)
                     :: (assign cnf2 variable false,
                         copyAssignment assignment2)
                     :: stack')
                    assignment
          end
      end
  end.

(** [func iterativeDPLL(cnf CNF, assignment map[int]bool)
    (bool, map[int]bool)]. *)
Definition iterativeDPLL (loops fuel : nat) (cnf : CNF)
    (assignment : gmap Z bool) : option (bool * gmap Z bool) :=
  iterative_loop loops fuel [(cnf, copyAssignment assignment)] assignment.

(** ** Strings

    A Go [string] is a sequence of bytes, here a [string] of [ascii]
    characters.  The functions of package [strings] the parser calls are
    written out for the arguments it calls them with. *)

(** [strings.ReplaceAll(input, " ", "")]. *)
Fixpoint remove_spaces (s : string) : string :=
  match s with
  | EmptyString => EmptyString
  | String c s' =>
      if Ascii.eqb c " "%char then remove_spaces s' else String c (remove_spaces s')
  end.

(** [strings.Split(s, sep)] for a separator that is not empty: the pieces of
    [s] between the occurrences of [sep], found from left to right without
    overlap.  [piece] is the piece being read, and [skip] counts the bytes of
    a separator still to pass over. *)
Fixpoint split_from (sep : string) (skip : nat) (piece : string) (s : string)
  : list string :=
  match s with
  | EmptyString => [piece]
  | String c s' =>
      match skip with
      | S skip' => split_from sep skip' piece s'
      | O =>
          if String.prefix sep s
          then piece :: split_from sep (String.length sep - 1) "" s'
          else split_from sep O (piece +:+ String c "") s'
      end
  end.

Definition Split (s sep : string) : list string := split_from sep 0 "" s.

(** Whether the byte [c] is in [cutset]. *)
Fixpoint in_cutset (c : Ascii.ascii) (cutset : string) : bool :=
  match cutset with
  | EmptyString => false
  | String d rest => Ascii.eqb c d || in_cutset c rest
  end.

Fixpoint trim_left (cutset : string) (s : string) : string :=
  match s with
  | EmptyString => EmptyString
  | String c s' => if in_cutset c cutset then trim_left cutset s' else s
  end.

(** [strings.Trim(s, cutset)]: [s] without its leading and trailing bytes that
    are in [cutset]. *)
Definition Trim (s cutset : string) : string :=
  String.rev (trim_left cutset (String.rev (trim_left cutset s))).

(** [strings.HasPrefix(s, prefix)]. *)
Definition HasPrefix (s p : string) : bool := String.prefix p s.

(** A name between double quotes, as the surface syntax writes it. *)
Definition quoted (name : string) : string :=
  String (Ascii.ascii_of_nat 34) (name +:+ String (Ascii.ascii_of_nat 34) "").

(** ** The formula store *)

Record FormulaStore := {
  Formulas : gmap string string;
  Assignments : gmap string (gmap string bool)
}.

(** ** [parseCNF] of [satisfier.go] *)

(** What the loops of one call of [parseCNF] read and write: the formula
    [cnf] and the clause [clause] under construction, the registry [varMap]
    (the caller's map, shared with every nested call), and the call's own
    [reverseMap] and [counter]. *)
Record parse_state := {
  ps_cnf : CNF;
  ps_clause : Clause;
  ps_varMap : gmap string Z;
  ps_reverseMap : gmap Z string;
  ps_counter : Z
}.

(** The closure [assignVar]: the id of [v], registered under the call's
    [counter] when [varMap] does not hold [v] yet. *)
Definition assignVar (v : string) (st : parse_state) : Z * parse_state :=
  match ps_varMap st !! v with
  | Some id => (id, st)
  | None =>
      (ps_counter st,
       {| ps_cnf := ps_cnf st;
          ps_clause := ps_clause st;
          ps_varMap := <[v := ps_counter st]> (ps_varMap st);
          ps_reverseMap := <[ps_counter st := v]> (ps_reverseMap st);
          ps_counter := wrap (ps_counter st + 1) |})
  end.

Section parse_loops.
(** The nested call [parseCNF(storedFormula, varMap, store)]: the formula
    it returns and the registry as it leaves it ([None]: it does not
    return). *)
Variable parse_stored :
  string -> gmap string Z -> option (CNF * gmap string Z).
Variable store : FormulaStore.

(** The body of [for _, litStr := range literals]. *)
Definition parse_literal (litStr : string) (st : parse_state)
  : option parse_state :=
  let isNeg := HasPrefix litStr "!" in
  let litStr := Trim litStr "!" in
  match Formulas store !! litStr with
  | Some storedFormula =>
      match parse_stored storedFormula (ps_varMap st) with
      | None => None
      | Some (subCNF, varMap') =>
          let added := if isNeg then map (map neg) subCNF else subCNF in
          Some {| ps_cnf := ps_cnf st ++ added;
                  ps_clause := ps_clause st;
                  ps_varMap := varMap';
                  ps_reverseMap := ps_reverseMap st;
                  ps_counter := ps_counter st |}
      end
  | None =>
      let '(lit, st') := assignVar litStr st in
      let lit := if isNeg then neg lit else lit in
      Some {| ps_cnf := ps_cnf st';
              ps_clause := ps_clause st' ++ [lit];
              ps_varMap := ps_varMap st';
              ps_reverseMap := ps_reverseMap st';
              ps_counter := ps_counter st' |}
  end.

Fixpoint parse_literals (literals : list string) (st : parse_state)
  : option parse_state :=
  match literals with
  | [] => Some st
  | litStr :: rest =>
      match parse_literal litStr st with
      | None => None
      | Some st' => parse_literals rest st'
      end
  end.

(** The body of [for _, clauseStr := range clauses]: a fresh [clause], the
    literals, then [if len(clause) > 0 { cnf = append(cnf, clause) }]. *)
Definition parse_clause (clauseStr : string) (st : parse_state)
  : option parse_state :=
  let literals := Split (Trim clauseStr "()") "\/" in
  match parse_literals literals
          {| ps_cnf := ps_cnf st;
             ps_clause := [];
             ps_varMap := ps_varMap st;
             ps_reverseMap := ps_reverseMap st;
             ps_counter := ps_counter st |} with
  | None => None
  | Some st' =>
      Some {| ps_cnf := if (0 <? length (ps_clause st'))%nat
                        then ps_cnf st' ++ [ps_clause st']
                        else ps_cnf st';
              ps_clause := ps_clause st';
              ps_varMap := ps_varMap st';
              ps_reverseMap := ps_reverseMap st';
              ps_counter := ps_counter st' |}
  end.

Fixpoint parse_clauses (clauses : list string) (st : parse_state)
  : option parse_state :=
  match clauses with
  | [] => Some st
  | clauseStr :: rest =>
      match parse_clause clauseStr st with
      | None => None
      | Some st' => parse_clauses rest st'
      end
  end.
End parse_loops.

(** [func parseCNF(input string, varMap map[string]int, store *FormulaStore)
    (CNF, map[int]string)], together with [varMap] as the call leaves it.
    [fuel] bounds the nesting of calls; [None] means the bound was reached.
    Every call starts its own [reverseMap] and its own [counter := 1]. *)
Fixpoint parseCNF (fuel : nat) (input : string) (varMap : gmap string Z)
    (store : FormulaStore) : option (CNF * gmap Z string * gmap string Z) :=
  match fuel with
  | O => None
  | S fuel' =>
      let nested storedFormula vm :=
        match parseCNF fuel' storedFormula vm store with
        | None => None
        | Some (subCNF, _, vm') => Some (subCNF, vm')
        end in
      let input := remove_spaces input in
      let clauses := Split input "/\" in
      match parse_clauses nested store clauses
              {| ps_cnf := [];
                 ps_clause := [];
                 ps_varMap := varMap;
                 ps_reverseMap := ∅;
                 ps_counter := 1 |} with
      | None => None
      | Some st => Some (ps_cnf st, ps_reverseMap st, ps_varMap st)
      end
  end.

(** ** [parseCNF] of the revision with [iterativeDPLL]

    The revision's parser is one loop over the bytes of [input]; a reference
    to a stored formula is replaced by the stored text inside [input], and
    the loop goes on from the start of the replacement. *)

Module Rewriting.

(** How a run ends: with a result, with a run-time panic (a slice
    expression out of range), or by reaching the bound on loop
    iterations. *)
Inductive outcome (A : Type) : Type :=
| Returned (a : A)
| Panicked
| OutOfFuel.
Arguments Returned {A} a.
Arguments Panicked {A}.
Arguments OutOfFuel {A}.

(** [input[:n]] and [input[n:]] for [n <= len(input)]. *)
Definition take_bytes (n : nat) (s : string) : string :=
  String.substring 0 n s.
Definition drop_bytes (n : nat) (s : string) : string :=
  String.substring n (String.length s - n) s.

(** The byte ends a literal token. *)
Definition is_delimiter (c : Ascii.ascii) : bool :=
  Ascii.eqb c ")"%char || Ascii.eqb c "\"%char || Ascii.eqb c "/"%char.

(** [for i < len(input) && (input[i] != ')' && input[i] != '\\' &&
    input[i] != '/') { i++ }]: how far [i] moves over [s = input[i:]]. *)
Fixpoint token_length (s : string) : nat :=
  match s with
  | EmptyString => O
  | String c s' => if is_delimiter c then O else S (token_length s')
  end.

Record state := {
  input : string;
  i : nat;
  stack : list string;
  vars : parse_state
}.

(** [if len(currentClause) > 0 { cnf = append(cnf, currentClause);
    currentClause = Clause{} }]. *)
Definition flush (ps : parse_state) : parse_state :=
  if (0 <? length (ps_clause ps))%nat
  then {| ps_cnf := ps_cnf ps ++ [ps_clause ps];
          ps_clause := [];
          ps_varMap := ps_varMap ps;
          ps_reverseMap := ps_reverseMap ps;
          ps_counter := ps_counter ps |}
  else ps.

(** [currentClause = append(currentClause, lit)] for the literal token
    [literal], negated when [isNeg]. *)
Definition add_literal (literal : string) (isNeg : bool) (ps : parse_state)
  : parse_state :=
  let '(lit, ps') := assignVar literal ps in
  let lit := if isNeg then neg lit else lit in
  {| ps_cnf := ps_cnf ps';
     ps_clause := ps_clause ps' ++ [lit];
     ps_varMap := ps_varMap ps';
     ps_reverseMap := ps_reverseMap ps';
     ps_counter := ps_counter ps' |}.

(** One turn of [for i < len(input) { switch input[i] { ... } }], for the
    byte [c = input[i]]. *)
Definition step (store : FormulaStore) (c : Ascii.ascii) (st : state)
  : outcome state :=
  let inp := input st in
  if Ascii.eqb c "("%char then
    Returned {| input := inp; i := S (i st);
                stack := "(" :: stack st; vars := vars st |}
  else if Ascii.eqb c ")"%char then
    match stack st with
    | [] => Panicked
    | _ :: stack' =>
        Returned {| input := inp; i := S (i st);
                    stack := stack'; vars := flush (vars st) |}
    end
  else if Ascii.eqb c "/"%char then
    match String.get (S (i st)) inp with
    | Some "\"%char =>
        Returned {| input := inp; i := S (S (i st));
                    stack := stack st; vars := flush (vars st) |}
    | _ =>
        Returned {| input := inp; i := S (i st);
                    stack := stack st; vars := vars st |}
    end
  else if Ascii.eqb c "\"%char then
    match String.get (S (i st)) inp with
    | Some "/"%char =>
        Returned {| input := inp; i := S (S (i st));
                    stack := stack st; vars := vars st |}
    | _ =>
        Returned {| input := inp; i := S (i st);
                    stack := stack st; vars := vars st |}
    end
  else if Ascii.eqb c "!"%char then
    let start := S (i st) in
    let stop := (start + token_length (drop_bytes start inp))%nat in
    let literal := String.substring start (stop - start) inp in
    match Formulas store !! literal with
    | Some storedFormula =>
        Returned {| input := take_bytes (start - 1) inp +:+ storedFormula
                             +:+ drop_bytes stop inp;
                    i := (start - 1)%nat;
                    stack := ("!" +:+ literal) :: stack st;
                    vars := vars st |}
    | None =>
        Returned {| input := inp; i := stop; stack := stack st;
                    vars := add_literal literal true (vars st) |}
    end
  else
    let start := i st in
    let stop := (start + token_length (drop_bytes start inp))%nat in
    let literal := String.substring start (stop - start) inp in
    match Formulas store !! literal with
    | Some storedFormula =>
        Returned {| input := take_bytes start inp +:+ storedFormula
                             +:+ drop_bytes stop inp;
                    i := start;
                    stack := literal :: stack st;
                    vars := vars st |}
    | None =>
        Returned {| input := inp; i := stop; stack := stack st;
                    vars := add_literal literal false (vars st) |}
    end.

(** The loop, then the final [if len(currentClause) > 0 { ... }]. *)
Fixpoint loop (fuel : nat) (store : FormulaStore) (st : state)
  : outcome parse_state :=
  match fuel with
  | O => OutOfFuel
  | S fuel' =>
      match String.get (i st) (input st) with
      | None => Returned (flush (vars st))
      | Some c =>
          match step store c st with
          | Returned st' => loop fuel' store st'
          | Panicked => Panicked
          | OutOfFuel => OutOfFuel
          end
      end
  end.

(** [func parseCNF(input string, varMap map[string]int, store
    *FormulaStore) (CNF, map[int]string)], together with [varMap] as the
    call leaves it. *)
Definition parseCNF (fuel : nat) (inp : string) (varMap : gmap string Z)
    (store : FormulaStore)
  : outcome (CNF * gmap Z string * gmap string Z) :=
  match loop fuel store
          {| input := remove_spaces inp; i := O; stack := [];
             vars := {| ps_cnf := []; ps_clause := [];
                        ps_varMap := varMap; ps_reverseMap := ∅;
                        ps_counter := 1 |} |} with
  | Returned ps => Returned (ps_cnf ps, ps_reverseMap ps, ps_varMap ps)
  | Panicked => Panicked
  | OutOfFuel => OutOfFuel
  end.

End Rewriting.

(** ** Semantics of formulas *)

(** A literal is made true by [M]: a positive literal whose variable [M] maps
    to [true], or a negative literal whose variable [M] maps to [false]. *)
Definition lit_true (M : gmap Z bool) (literal : Z) : bool :=
  match M !! abs literal with
  | Some true => 0 <? literal
  | Some false => literal <? 0
  | None => false
  end.

Definition clause_true (M : gmap Z bool) (clause : Clause) : bool :=
  existsb (lit_true M) clause.

(** Every clause contains at least one literal made true by [M]. *)
Definition satisfies (M : gmap Z bool) (cnf : CNF) : bool :=
  forallb (clause_true M) cnf.

(** The variables of a formula: the values [abs] gives on its literals. *)
Definition variables (cnf : CNF) : gset Z :=
  list_to_set (map abs (concat cnf)).

(** Every literal is a value of Go's [int]. *)
Definition int_cnf (cnf : CNF) : Prop :=
  Forall (Forall is_int) cnf.

(** A literal of the data model: not 0, and both it and its negation are
    values of [int]. *)
Definition valid_lit (literal : Z) : Prop :=
  literal <> 0 /\ int_min < literal <= int_max.

Definition valid_cnf (cnf : CNF) : Prop :=
  Forall (Forall valid_lit) cnf.

(** The number of literal occurrences; below [2 ^ 63] no counter of
    [PureLiteralElimination] wraps around. *)
Definition cnf_size (cnf : CNF) : nat := length (concat cnf).

Definition small_cnf (cnf : CNF) : Prop :=
  Z.of_nat (cnf_size cnf) < 2 ^ 63.

(** Brute force: every total assignment to the variables [vs]. *)
Fixpoint all_assignments (vs : list Z) : list (gmap Z bool) :=
  match vs with
  | [] => [∅]
  | v :: rest =>
      map (insert v true) (all_assignments rest)
      ++ map (insert v false) (all_assignments rest)
  end.

(** The truth-table verdict: some row of the table satisfies the formula. *)
Definition brute_force (cnf : CNF) : bool :=
  existsb (fun M => satisfies M cnf)
          (all_assignments (elements (variables cnf))).

(** ** Pre-assignments *)

(** The loop [for variable, value := range assignment { cnf = assign(cnf,
    variable, value) }], run over the entries in the order [entries]. *)
Definition apply_entries (entries : list (Z * bool)) (cnf : CNF) : CNF :=
  foldl (fun cnf (entry : Z * bool) => assign cnf entry.1 entry.2)
        cnf entries.

(** [func applyPreAssignments(cnf CNF, assignment map[int]bool) CNF].  The
    order of [range] is [map_to_list]'s here; [apply_entries_order] shows
    when another order gives the same formula. *)
Definition applyPreAssignments (cnf : CNF) (assignment : gmap Z bool) : CNF :=
  apply_entries (map_to_list assignment) cnf.

(** [reverseMap[abs(lit)]]: reading a Go [map[int]string] at a key it does
    not hold gives the empty string. *)
Definition name_of (reverseMap : gmap Z string) (lit : Z) : string :=
  default "" (reverseMap !! abs lit).

(** [func containsVariable(cnf CNF, varName string, reverseMap
    map[int]string) bool]. *)
Definition containsVariable (cnf : CNF) (varName : string)
    (reverseMap : gmap Z string) : bool :=
  existsb (fun clause =>
             existsb (fun lit => String.eqb (name_of reverseMap lit) varName)
                     clause)
          cnf.

(** ** [assign] on Go's slices

    The list embedding above gives a clause set no identity.  To tell a call
    that builds a new clause set from one that writes into its argument,
    [assign] is embedded a second time, over a memory of backing arrays: a
    slice is a window [(base, off, len, cap)] on an array, [append] writes in
    place while [len < cap] and otherwise moves the elements to a new array,
    of a capacity the run-time system chooses ([grow], never less than what
    is needed). *)

Record slice := {
  s_base : nat;
  s_off : nat;
  s_len : nat;
  s_cap : nat
}.

(** [Clause{}] and [CNF{}]: no element, no capacity. *)
Definition empty_slice : slice :=
  {| s_base := 0; s_off := 0; s_len := 0; s_cap := 0 |}.

Section slices.
Context {A : Type}.
Variable zero : A.
Variable grow : nat -> nat -> nat.

(** [s[i]], read from the memory [st] of arrays. *)
Definition slice_index (st : list (list A)) (s : slice) (i : nat)
  : option A :=
  match st !! s_base s with
  | Some arr => arr !! (s_off s + i)%nat
  | None => None
  end.

(** The elements [s[0], ..., s[len-1]]. *)
Definition slice_read (st : list (list A)) (s : slice) : option (list A) :=
  if (s_len s =? 0)%nat then Some []
  else
    match st !! s_base s with
    | Some arr =>
        if (s_off s + s_len s <=? length arr)%nat
        then Some (take (s_len s) (drop (s_off s) arr))
        else None
    | None => None
    end.

(** [append(s, x)]: the memory it leaves and the slice it returns. *)
Definition slice_append (st : list (list A)) (s : slice) (x : A)
  : list (list A) * slice :=
  if (s_len s <? s_cap s)%nat
  then
    (alter (fun arr => <[(s_off s + s_len s)%nat := x]> arr) (s_base s) st,
     {| s_base := s_base s; s_off := s_off s;
        s_len := S (s_len s); s_cap := s_cap s |})
  else
    let newcap := Nat.max (S (s_len s)) (grow (s_cap s) (S (s_len s))) in
    (st ++ [default [] (slice_read st s)
            ++ x :: replicate (newcap - S (s_len s)) zero],
     {| s_base := length st; s_off := 0;
        s_len := S (s_len s); s_cap := newcap |}).
End slices.

(** The memory: the arrays of literals and the arrays of clause headers. *)
Record heap := {
  ints : list (list Z);
  heads : list (list slice)
}.

(** The clause set a [CNF] slice denotes in a memory. *)
Definition read_cnf (h : heap) (cnf : slice) : option CNF :=
  match slice_read (heads h) cnf with
  | Some clauses => mapM (slice_read (ints h)) clauses
  | None => None
  end.

Section assign_slices.
Variable grow_ints : nat -> nat -> nat.
Variable grow_heads : nat -> nat -> nat.
Variable variable : Z.
Variable value : bool.

(** The inner loop of [assign], from index [i] for [n] more literals.  The
    outer [None] is an index out of range; the inner [None] is
    [skipClause]. *)
Fixpoint clause_loop (n i : nat) (h : heap) (clause newClause : slice)
  : option (heap * option slice) :=
  match n with
  | O => Some (h, Some newClause)
  | S n' =>
      match slice_index (ints h) clause i with
      | None => None
      | Some literal =>
          if ((literal =? variable) && value)
             || ((literal =? neg variable) && negb value)
          then Some (h, None)
          else if negb (literal =? variable)
                  && negb (literal =? neg variable)
          then
            let '(ints', newClause') :=
              slice_append 0 grow_ints (ints h) newClause literal in
            clause_loop n' (S i) {| ints := ints'; heads := heads h |}
                        clause newClause'
          else clause_loop n' (S i) h clause newClause
      end
  end.

(** The outer loop of [assign], from index [i] for [n] more clauses. *)
Fixpoint cnf_loop (n i : nat) (h : heap) (cnf newCNF : slice)
  : option (heap * slice) :=
  match n with
  | O => Some (h, newCNF)
  | S n' =>
      match slice_index (heads h) cnf i with
      | None => None
      | Some clause =>
          match clause_loop (s_len clause) 0 h clause empty_slice with
          | None => None
          | Some (h', None) => cnf_loop n' (S i) h' cnf newCNF
          | Some (h', Some newClause) =>
              let '(heads', newCNF') :=
                slice_append empty_slice grow_heads (heads h') newCNF
                             newClause in
              cnf_loop n' (S i) {| ints := ints h'; heads := heads' |}
                       cnf newCNF'
          end
      end
  end.

(** [func assign(cnf CNF, variable int, value bool) CNF] on slices: the
    memory it leaves and the slice it returns. *)
Definition assign_slices (h : heap) (cnf : slice) : option (heap * slice) :=
  cnf_loop (s_len cnf) 0 h cnf empty_slice.
End assign_slices.

(** A slice shares no array that existed when the memory had [n] arrays. *)
Definition fresh_slice (n : nat) (s : slice) : Prop :=
  s_len s = 0%nat \/ (n <= s_base s)%nat.

(** The slice [s] was built on arrays allocated after the first [n0], and
    holds [vals]. *)
Definition owned {A} (st : list (list A)) (n0 : nat) (s : slice)
    (vals : list A) : Prop :=
  (s_cap s = 0%nat /\ s_len s = 0%nat /\ vals = [])
  \/ ((n0 <= s_base s)%nat /\ s_off s = 0%nat
      /\ exists arr, st !! s_base s = Some arr
                     /\ s_cap s = length arr
                     /\ (s_len s <= length arr)%nat
                     /\ take (s_len s) arr = vals).

(** ** Vocabulary of the statements *)

(** The literal that [(variable, value)] makes true. *)
Definition lit_of (variable : Z) (value : bool) : Z :=
  if value then variable else neg variable.

Definition count_literal (m : gmap Z Z) (literal : Z) : gmap Z Z :=
  <[literal := wrap (count_of m literal + 1)]> m.

(** What the test of the second loop finds out about a literal it lets
    through: it occurs in the formula and its negation does not. *)
Definition pure_in (cnf : CNF) (l : Z) : Prop :=
  l ∈ concat cnf /\ neg l ∉ concat cnf.

(** The literals the second loop lets through, in the order of [entries]. *)
Definition passing (literalCount : gmap Z Z) (entries : list (Z * Z))
  : list Z :=
  (filter (fun entry : Z * Z =>
             (0 <? entry.2)
             && (count_of literalCount (neg entry.1) =? 0) = true)
          entries).*1.

Definition record_literal (assignment : gmap Z bool) (l : Z) : gmap Z bool :=
  <[abs l := 0 <? l]> assignment.

Definition assign_literal (cnf : CNF) (l : Z) : CNF :=
  assign cnf (abs l) (0 <? l).

(** [(cnf', assignment')] is a simplification of [(cnf, assignment)]: no new
    variable, no write outside the variables of [cnf], and every map that
    keeps what [assignment'] holds outside [cnf'] and satisfies [cnf']
    satisfies [cnf]. *)
Definition reduces (cnf : CNF) (assignment : gmap Z bool)
    (cnf' : CNF) (assignment' : gmap Z bool) : Prop :=
  variables cnf' ⊆ variables cnf
  /\ (forall v, v ∉ variables cnf -> assignment' !! v = assignment !! v)
  /\ (forall M, (forall v, v ∉ variables cnf' -> M !! v = assignment' !! v) ->
                satisfies M cnf' = true -> satisfies M cnf = true).

(** What a search returns for [(cnf, assignment)]: a map that differs from
    [assignment] on variables of [cnf] only and, when the verdict is
    "satisfiable", satisfies [cnf]. *)
Definition result_ok (cnf : CNF) (assignment : gmap Z bool)
    (verdict : bool) (M : gmap Z bool) : Prop :=
  (forall v, v ∉ variables cnf -> M !! v = assignment !! v)
  /\ (verdict = true -> satisfies M cnf = true).

(** A formula on which the branch [1 := true] fails after unit propagation
    has recorded [3 := true], and the branch [1 := false] succeeds without
    touching variable 3. *)
Definition leaking_cnf : CNF := [[-1; 3]; [-1; -3]; [1; 2; 4]; [1; -2; -4]].

(** The literal token [litStr] is no reference, or refers to a stored text
    that [ok] accepts. *)
Definition token_ok (store : FormulaStore) (ok : string -> bool)
    (litStr : string) : bool :=
  match Formulas store !! Trim litStr "!" with
  | None => true
  | Some storedFormula => ok storedFormula
  end.

Definition clause_ok (store : FormulaStore) (ok : string -> bool)
    (clauseStr : string) : bool :=
  forallb (token_ok store ok) (Split (Trim clauseStr "()") "\/").

(** The stored-formula references reachable from [input] nest fewer than
    [depth] times. *)
Fixpoint refs_within (store : FormulaStore) (depth : nat) (input : string)
  : bool :=
  match depth with
  | O => false
  | S depth' =>
      forallb (clause_ok store (refs_within store depth'))
              (Split (remove_spaces input) "/\")
  end.

(** The repository of Scenario C: [R = (!"j" \/ !"y")]. *)
Definition store_R : FormulaStore :=
  {| Formulas :=
       {[ quoted "R" := "(!" +:+ quoted "j" +:+ " \/ !" +:+ quoted "y" +:+ ")" ]};
     Assignments := ∅ |}.

(** [("R" \/ "j") /\ ("j" \/ "y")]. *)
Definition formula_I : string :=
  "(" +:+ quoted "R" +:+ " \/ " +:+ quoted "j" +:+ ") /\ ("
      +:+ quoted "j" +:+ " \/ " +:+ quoted "y" +:+ ")".

(** A repository whose formula [X = ("X")] refers to itself. *)
Definition formula_X : string := "(" +:+ quoted "X" +:+ ")".

Definition store_X : FormulaStore :=
  {| Formulas := {[ quoted "X" := formula_X ]}; Assignments := ∅ |}.

(** Two formulas that refer to each other: [P = ("Q")], [Q = ("P")]. *)
Definition store_PQ : FormulaStore :=
  {| Formulas := {[ quoted "P" := "(" +:+ quoted "Q" +:+ ")";
                    quoted "Q" := "(" +:+ quoted "P" +:+ ")" ]};
     Assignments := ∅ |}.

(** A repository with [S = ("b")], and the formula [("a" \/ "S")]. *)
Definition store_S : FormulaStore :=
  {| Formulas := {[ quoted "S" := "(" +:+ quoted "b" +:+ ")" ]};
     Assignments := ∅ |}.

Definition formula_aS : string :=
  "(" +:+ quoted "a" +:+ " \/ " +:+ quoted "S" +:+ ")".

Fixpoint repeat_string (s : string) (k : nat) : string :=
  match k with
  | O => ""
  | S k' => s +:+ repeat_string s k'
  end.

(** The text the rewriting parser holds after [k] substitutions of [X] in
    [("X")]. *)
Definition nested_X (k : nat) : string :=
  repeat_string "(" k +:+ (formula_X +:+ repeat_string ")" k).

(** Some map satisfies the formula. *)
Definition satisfiable (cnf : CNF) : Prop :=
  exists M, satisfies M cnf = true.

(** The share of a formula in the work of the stack search: it is popped
    once, and each of the two formulas it pushes has fewer variables. *)
Definition weight (cnf : CNF) : nat := 2 ^ S (size (variables cnf)) - 1.

Definition stack_weight (stack : list (CNF * gmap Z bool)) : nat :=
  foldr (fun st n => (weight st.1 + n)%nat) O stack.

(** The formulas on the stack are formulas of the data model, within the
    bound [loops] on unit propagation. *)
Definition stack_ok (loops : nat) (stack : list (CNF * gmap Z bool)) : Prop :=
  Forall (fun st : CNF * gmap Z bool =>
            valid_cnf st.1 /\ small_cnf st.1 /\ (length st.1 < loops)%nat)
         stack.

(** The literal tokens of a clause text, as [parseCNF] of [satisfier.go]
    looks them up in the store: the pieces between ["\/"], without their
    leading and trailing ['!']. *)
Definition clause_tokens (clauseStr : string) : list string :=
  map (fun litStr => Trim litStr "!") (Split (Trim clauseStr "()") "\/").

(** The literal tokens of a formula text. *)
Definition literal_tokens (input : string) : list string :=
  concat (map clause_tokens (Split (remove_spaces input) "/\")).

(** A name the rewriting parser reads as one literal token: not empty, its
    first byte none of ['('], [')'], ['/'], ['\\'], ['!'], no delimiter byte
    and no space inside. *)
Definition plain_name (name : string) : bool :=
  match name with
  | EmptyString => false
  | String c _ =>
      negb (Ascii.eqb c "("%char) && negb (Ascii.eqb c ")"%char)
      && negb (Ascii.eqb c "/"%char) && negb (Ascii.eqb c "\"%char)
      && negb (Ascii.eqb c "!"%char)
      && (Rewriting.token_length name =? String.length name)%nat
      && String.eqb (remove_spaces name) name
  end.

(** The text the rewriting parser holds after [k] substitutions of [name]
    in [(name)]. *)
Definition nested_name (name : string) (k : nat) : string :=
  repeat_string "(" k +:+ (("(" +:+ name +:+ ")") +:+ repeat_string ")" k).

(** * Proofs *)

(** ** Machine integers *)

Lemma wrap_int z : is_int z -> wrap z = z.
Proof.
  unfold is_int, wrap, int_min, int_max. intros H.
  rewrite Z.mod_small; lia.
Qed.

Lemma wrap_is_int z : is_int (wrap z).
Proof.
  unfold is_int, wrap, int_min, int_max.
  pose proof (Z.mod_pos_bound (z + 2 ^ 63) (2 ^ 64)). lia.
Qed.

Lemma neg_is_int x : is_int (neg x).
Proof. apply wrap_is_int. Qed.

Lemma neg_opp x : int_min < x <= int_max -> neg x = - x.
Proof.
  intros H. apply wrap_int. unfold is_int, int_min, int_max in *. lia.
Qed.

Lemma neg_int_min : neg int_min = int_min.
Proof. reflexivity. Qed.

Lemma neg_zero : neg 0 = 0.
Proof. reflexivity. Qed.

Lemma neg_neg x : is_int x -> neg (neg x) = x.
Proof.
  intros H. destruct (decide (x = int_min)) as [->|Hne].
  - reflexivity.
  - assert (int_min < x <= int_max) as Hx by (unfold is_int in H; lia).
    rewrite (neg_opp x Hx). rewrite neg_opp.
    + lia.
    + unfold int_min, int_max in *. lia.
Qed.

Lemma abs_is_int x : is_int x -> is_int (abs x).
Proof.
  intros H. unfold abs. destruct (x <? 0); [apply neg_is_int | done].
Qed.

(** A literal is its variable or the negation of its variable. *)
Lemma abs_cases l : is_int l -> l = abs l \/ l = neg (abs l).
Proof.
  intros H. unfold abs. destruct (Z.ltb_spec l 0).
  - right. by rewrite neg_neg.
  - by left.
Qed.

Lemma abs_valid l : valid_lit l -> abs l = Z.abs l /\ 0 < abs l <= int_max.
Proof.
  intros [H0 H]. unfold abs. destruct (Z.ltb_spec l 0).
  - rewrite neg_opp by done. unfold int_min, int_max in *. lia.
  - lia.
Qed.

Lemma valid_lit_int l : valid_lit l -> is_int l.
Proof. intros [_ H]. unfold is_int. lia. Qed.

Lemma valid_cnf_int cnf : valid_cnf cnf -> int_cnf cnf.
Proof.
  unfold valid_cnf, int_cnf. intros H.
  eapply Forall_impl; [exact H|]. intros c Hc.
  eapply Forall_impl; [exact Hc|]. apply valid_lit_int.
Qed.

(** ** [assign] *)

Lemma assign_test variable value literal :
  ((literal =? variable) && value) || ((literal =? neg variable) && negb value)
  = true ->
  literal = variable \/ literal = neg variable.
Proof.
  intros H. apply orb_true_iff in H as [H|H];
    apply andb_true_iff in H as [H _]; apply Z.eqb_eq in H; auto.
Qed.

Lemma assign_clause_skip variable value clause :
  assign_clause variable value clause = None ->
  lit_of variable value ∈ clause.
Proof.
  induction clause as [|l rest IH]; simpl; [done|].
  destruct (_ || _) eqn:Htest.
  - intros _. replace (lit_of variable value) with l; [apply list_elem_of_here|].
    unfold lit_of. destruct value; simpl in Htest.
    + rewrite andb_true_r, andb_false_r, orb_false_r in Htest. lia.
    + rewrite andb_true_r, andb_false_r in Htest. simpl in Htest. lia.
  - destruct (assign_clause variable value rest) eqn:Hrest.
    + destruct (negb (l =? variable) && negb (l =? neg variable)); discriminate.
    + intros _. apply list_elem_of_further. by apply IH.
Qed.

Lemma assign_clause_keep variable value clause newClause :
  assign_clause variable value clause = Some newClause ->
  (lit_of variable value ∉ clause) /\
  (forall l, l ∈ newClause <->
             l ∈ clause /\ l <> variable /\ l <> neg variable).
Proof.
  revert newClause.
  induction clause as [|l rest IH]; simpl; intros newClause H.
  - inversion H; subst. split; [apply not_elem_of_nil|].
    intros l. split; [by intros ?%elem_of_nil|by intros [?%elem_of_nil _]].
  - destruct (_ || _) eqn:Htest; [done|].
    destruct (assign_clause variable value rest) as [c|] eqn:Hrest; [|done].
    destruct (IH c eq_refl) as [Hnot Hin].
    assert (l <> lit_of variable value) as Hl.
    { unfold lit_of. destruct value; simpl in Htest.
      - rewrite andb_true_r, andb_false_r, orb_false_r in Htest. lia.
      - rewrite andb_true_r, andb_false_r in Htest. simpl in Htest. lia. }
    split.
    { intros [?|?]%elem_of_cons; [congruence|done]. }
    intros l'. destruct (negb (l =? variable) && negb (l =? neg variable))
      eqn:Hkeep; inversion H; subst.
    + apply andb_true_iff in Hkeep as [H1 H2].
      apply negb_true_iff, Z.eqb_neq in H1, H2.
      rewrite !elem_of_cons, Hin. naive_solver.
    + rewrite elem_of_cons, Hin.
      assert (l = variable \/ l = neg variable) as Hv.
      { apply andb_false_iff in Hkeep as [H1|H1];
          apply negb_false_iff, Z.eqb_eq in H1; auto. }
      naive_solver.
Qed.

(** A clause that mentions neither [variable] nor [-variable] passes
    through unchanged. *)
Lemma assign_clause_id variable value clause :
  variable ∉ clause -> neg variable ∉ clause ->
  assign_clause variable value clause = Some clause.
Proof.
  induction clause as [|l rest IH]; simpl; [done|].
  intros [H1 H1']%not_elem_of_cons [H2 H2']%not_elem_of_cons.
  rewrite (IH H1' H2').
  apply Z.eqb_neq in H1, H2.
  rewrite (Z.eqb_sym variable l) in H1. rewrite (Z.eqb_sym (neg variable) l) in H2.
  by rewrite H1, H2.
Qed.

Lemma assign_id cnf variable value :
  Forall (fun clause => (variable ∉ clause) /\ (neg variable ∉ clause)) cnf ->
  assign cnf variable value = cnf.
Proof.
  induction 1 as [|clause rest [H1 H2] _ IH]; simpl; [done|].
  by rewrite (assign_clause_id _ _ _ H1 H2), IH.
Qed.

Lemma assign_elem cnf variable value newClause :
  newClause ∈ assign cnf variable value <->
  exists clause, clause ∈ cnf /\
                 assign_clause variable value clause = Some newClause.
Proof.
  induction cnf as [|clause rest IH]; simpl.
  - split; [by intros ?%elem_of_nil|by intros (? & ?%elem_of_nil & _)].
  - destruct (assign_clause variable value clause) as [c|] eqn:Hc.
    + rewrite elem_of_cons, IH. split.
      * intros [->|(c' & ? & ?)]; [exists clause|exists c'];
          rewrite elem_of_cons; auto.
      * intros (c' & [->|?]%elem_of_cons & ?); [left; congruence|right; eauto].
    + rewrite IH. split.
      * intros (c' & ? & ?). exists c'. rewrite elem_of_cons. auto.
      * intros (c' & [->|?]%elem_of_cons & ?); [congruence|eauto].
Qed.

(** [assign] leaves no occurrence of the variable behind. *)
Lemma assign_eliminates cnf variable value :
  Forall (fun clause => (variable ∉ clause) /\ (neg variable ∉ clause))
         (assign cnf variable value).
Proof.
  apply Forall_forall. intros c (c0 & _ & Hc)%assign_elem.
  apply assign_clause_keep in Hc as [_ Hc].
  split; intros (_ & ? & ?)%Hc; congruence.
Qed.

Lemma assign_length cnf variable value :
  (length (assign cnf variable value) <= length cnf)%nat.
Proof.
  induction cnf as [|clause rest IH]; simpl; [done|].
  destruct (assign_clause _ _ _); simpl; lia.
Qed.

Lemma assign_length_lt cnf variable value clause :
  clause ∈ cnf -> assign_clause variable value clause = None ->
  (length (assign cnf variable value) < length cnf)%nat.
Proof.
  induction cnf as [|c rest IH]; simpl; [by intros ?%elem_of_nil|].
  intros [->|Hin]%elem_of_cons Hskip.
  - rewrite Hskip. pose proof (assign_length rest variable value). lia.
  - specialize (IH Hin Hskip). destruct (assign_clause _ _ c); simpl; lia.
Qed.

Lemma assign_clause_sub variable value clause newClause l :
  assign_clause variable value clause = Some newClause ->
  l ∈ newClause -> l ∈ clause.
Proof. intros [_ H]%assign_clause_keep Hl. by apply H in Hl as [? _]. Qed.

Lemma assign_clause_length variable value clause newClause :
  assign_clause variable value clause = Some newClause ->
  (length newClause <= length clause)%nat.
Proof.
  revert newClause. induction clause as [|l rest IH]; simpl; intros c H.
  - by inversion H.
  - destruct (_ || _); [done|].
    destruct (assign_clause variable value rest) as [c'|]; [|done].
    specialize (IH c' eq_refl).
    destruct (negb _ && negb _); inversion H; subst; simpl; lia.
Qed.

Lemma assign_size cnf variable value :
  (cnf_size (assign cnf variable value) <= cnf_size cnf)%nat.
Proof.
  unfold cnf_size. induction cnf as [|c rest IH]; simpl; [done|].
  destruct (assign_clause variable value c) as [c'|] eqn:Hc; simpl;
    rewrite ?length_app; [|lia].
  apply assign_clause_length in Hc. lia.
Qed.

Section preserved.
Variable P : Z -> Prop.

Lemma assign_Forall cnf variable value :
  Forall (Forall P) cnf -> Forall (Forall P) (assign cnf variable value).
Proof.
  rewrite !Forall_forall. intros H c' (c & Hc & Hc')%assign_elem.
  apply Forall_forall. intros l Hl.
  eapply assign_clause_sub in Hl; [|exact Hc'].
  specialize (H c Hc). rewrite Forall_forall in H. auto.
Qed.
End preserved.

(** ** Variables *)

Lemma elem_of_variables cnf v :
  v ∈ variables cnf <->
  exists clause l, clause ∈ cnf /\ l ∈ clause /\ abs l = v.
Proof.
  unfold variables. rewrite elem_of_list_to_set, list_elem_of_In, in_map_iff.
  split.
  - intros (l & Hl & Hin). apply in_concat in Hin as (c & Hc & Hlc).
    exists c, l. by rewrite !list_elem_of_In.
  - intros (c & l & Hc & Hl & Habs). exists l. split; [done|].
    apply in_concat. exists c. by rewrite <- !list_elem_of_In.
Qed.

Lemma int_cnf_elem cnf clause l :
  int_cnf cnf -> clause ∈ cnf -> l ∈ clause -> is_int l.
Proof.
  unfold int_cnf. rewrite Forall_forall. intros H Hc Hl.
  specialize (H clause Hc). rewrite Forall_forall in H. auto.
Qed.

Lemma valid_cnf_elem cnf clause l :
  valid_cnf cnf -> clause ∈ cnf -> l ∈ clause -> valid_lit l.
Proof.
  unfold valid_cnf. rewrite Forall_forall. intros H Hc Hl.
  specialize (H clause Hc). rewrite Forall_forall in H. auto.
Qed.

(** [assign] removes every occurrence of the variable, and adds none. *)
Lemma variables_assign cnf variable value :
  int_cnf cnf ->
  variables (assign cnf variable value) ⊆ variables cnf ∖ {[variable]}.
Proof.
  intros Hint v (c' & l & Hc' & Hl & Habs)%elem_of_variables.
  apply assign_elem in Hc' as (c & Hc & Hcc').
  apply assign_clause_keep in Hcc' as [_ Hkeep].
  apply Hkeep in Hl as (Hl & Hne1 & Hne2).
  apply elem_of_difference. split.
  - apply elem_of_variables. eauto.
  - rewrite elem_of_singleton. intros ->.
    destruct (abs_cases l) as [E|E]; [by eapply int_cnf_elem|..]; congruence.
Qed.

Lemma variables_assign_size cnf variable value :
  int_cnf cnf -> variable ∈ variables cnf ->
  (size (variables (assign cnf variable value)) < size (variables cnf))%nat.
Proof.
  intros Hint Hv. apply subset_size.
  pose proof (variables_assign cnf variable value Hint). set_solver.
Qed.

(** ** [UnitPropagation] *)

Lemma find_unit_Some cnf unit : find_unit cnf = Some unit -> [unit] ∈ cnf.
Proof.
  induction cnf as [|c rest IH]; simpl; [done|].
  destruct c as [|l [|l' c]]; intros H.
  - apply list_elem_of_further; auto.
  - inversion H; subst. apply list_elem_of_here.
  - apply list_elem_of_further; auto.
Qed.

Lemma find_unit_None cnf :
  find_unit cnf = None -> Forall (fun clause => length clause <> 1%nat) cnf.
Proof.
  induction cnf as [|c rest IH]; simpl; [constructor|].
  destruct c as [|l [|l' c]]; intros H; try done; constructor; auto.
Qed.

(** The unit clause itself is dropped by the assignment it forces. *)
Lemma assign_clause_unit unit :
  is_int unit -> assign_clause (abs unit) (0 <? unit) [unit] = None.
Proof.
  intros Hint. simpl. unfold abs.
  destruct (Z.ltb_spec 0 unit) as [Hpos|Hle].
  - destruct (Z.ltb_spec unit 0); [lia|]. by rewrite Z.eqb_refl.
  - destruct (Z.ltb_spec unit 0).
    + rewrite neg_neg by done. by rewrite Z.eqb_refl, orb_true_r.
    + assert (unit = 0) as -> by lia. reflexivity.
Qed.

Lemma no_empty_clause_spec cnf :
  no_empty_clause cnf = true <-> Forall (fun clause => clause <> []) cnf.
Proof.
  unfold no_empty_clause. rewrite forallb_forall, Forall_forall.
  split; intros H c Hc.
  - apply list_elem_of_In, H in Hc. by destruct c.
  - apply list_elem_of_In, H in Hc. by destruct c.
Qed.

(** The loop stops with a formula that has no unit clause left, and it does
    so within [length cnf] iterations: each one drops a clause. *)
Lemma unit_loop_returns fuel cnf assignment :
  int_cnf cnf -> (length cnf < fuel)%nat ->
  exists cnf' assignment',
    unit_loop fuel cnf assignment = Some (cnf', assignment')
    /\ find_unit cnf' = None
    /\ int_cnf cnf'
    /\ (length cnf' <= length cnf)%nat
    /\ (cnf_size cnf' <= cnf_size cnf)%nat
    /\ variables cnf' ⊆ variables cnf.
Proof.
  revert cnf assignment.
  induction fuel as [|fuel IH]; intros cnf assignment Hint Hlen; [lia|].
  simpl. destruct (find_unit cnf) as [unit|] eqn:Hunit.
  - pose proof (find_unit_Some _ _ Hunit) as Hin.
    assert (is_int unit) as Hu.
    { eapply int_cnf_elem; [done..|]. apply list_elem_of_here. }
    pose proof (assign_length_lt cnf _ _ _ Hin (assign_clause_unit unit Hu)).
    destruct (IH (assign cnf (abs unit) (0 <? unit))
                 (<[abs unit := 0 <? unit]> assignment))
      as (cnf' & assignment' & Heq & Hnone & Hint' & Hlen' & Hsize & Hvars).
    { by apply assign_Forall. }
    { lia. }
    exists cnf', assignment'. repeat split; try done.
    + lia.
    + pose proof (assign_size cnf (abs unit) (0 <? unit)). lia.
    + pose proof (variables_assign cnf (abs unit) (0 <? unit) Hint).
      set_solver.
  - exists cnf, assignment. repeat split; done.
Qed.

(** ** Satisfaction *)

Lemma satisfies_spec M cnf :
  satisfies M cnf = true <->
  forall clause, clause ∈ cnf -> exists l, l ∈ clause /\ lit_true M l = true.
Proof.
  unfold satisfies, clause_true. rewrite forallb_forall. split.
  - intros H c Hc. apply list_elem_of_In, H, existsb_exists in Hc
      as (l & Hl & Ht). exists l. by rewrite list_elem_of_In.
  - intros H c Hc. apply list_elem_of_In, H in Hc as (l & Hl & Ht).
    apply existsb_exists. exists l. by rewrite <- list_elem_of_In.
Qed.

Lemma lit_true_valid M l :
  valid_lit l -> lit_true M l = true <-> M !! abs l = Some (0 <? l).
Proof.
  intros [H0 _]. unfold lit_true.
  destruct (M !! abs l) as [[]|]; destruct (Z.ltb_spec 0 l);
    destruct (Z.ltb_spec l 0); split; intros; try done; lia.
Qed.

(** The literal [(variable, value)] makes true, for a variable of the data
    model, is the literal of that polarity. *)
Lemma lit_of_valid variable value :
  0 < variable <= int_max ->
  valid_lit (lit_of variable value)
  /\ abs (lit_of variable value) = variable
  /\ (0 <? lit_of variable value) = value.
Proof.
  intros Hv. unfold lit_of, valid_lit, abs. destruct value.
  - destruct (Z.ltb_spec variable 0), (Z.ltb_spec 0 variable);
      unfold int_min, int_max in *; repeat split; lia.
  - assert (neg variable = - variable) as E.
    { apply neg_opp. unfold int_min, int_max in *. lia. }
    rewrite E. destruct (Z.ltb_spec (- variable) 0); [|lia].
    rewrite neg_opp by (unfold int_min, int_max in *; lia).
    destruct (Z.ltb_spec 0 (- variable)); unfold int_min, int_max in *;
      repeat split; lia.
Qed.

Lemma lit_of_abs l :
  valid_lit l -> lit_of (abs l) (0 <? l) = l.
Proof.
  intros [H0 H]. unfold lit_of, abs.
  destruct (Z.ltb_spec 0 l), (Z.ltb_spec l 0); try lia.
  apply neg_neg. unfold is_int. lia.
Qed.

(** A literal over [variable] is one of its two polarities. *)
Lemma abs_inv l variable :
  is_int l -> abs l = variable -> l = variable \/ l = neg variable.
Proof. intros H <-. by apply abs_cases. Qed.

Lemma assign_sound M cnf variable value :
  0 < variable <= int_max ->
  M !! variable = Some value ->
  satisfies M (assign cnf variable value) = true ->
  satisfies M cnf = true.
Proof.
  intros Hv HM. rewrite !satisfies_spec. intros H c Hc.
  destruct (lit_of_valid variable value Hv) as (Hvalid & Habs & Hpos).
  destruct (assign_clause variable value c) as [c'|] eqn:Hc'.
  - destruct (H c') as (l & Hl & Ht).
    { apply assign_elem. eauto. }
    exists l. split; [|done]. by eapply assign_clause_sub.
  - exists (lit_of variable value). split.
    + by apply assign_clause_skip.
    + apply lit_true_valid; [done|]. by rewrite Habs, Hpos.
Qed.

Lemma assign_complete M cnf variable value :
  int_cnf cnf ->
  0 < variable <= int_max ->
  M !! variable = Some value ->
  satisfies M cnf = true ->
  satisfies M (assign cnf variable value) = true.
Proof.
  intros Hint Hv HM. rewrite !satisfies_spec.
  intros H c' (c & Hc & Hc')%assign_elem.
  destruct (H c Hc) as (l & Hl & Ht). exists l. split; [|done].
  apply assign_clause_keep in Hc' as [Hnot Hkeep]. apply Hkeep.
  split; [done|].
  destruct (lit_of_valid variable true Hv) as (_ & Habs1 & _).
  destruct (lit_of_valid variable false Hv) as (_ & Habs2 & Hneg).
  simpl in Habs1, Habs2, Hneg.
  split; intros ->; apply Hnot; unfold lit_true in Ht.
  - rewrite Habs1, HM in Ht. destruct value; [done|]. lia.
  - rewrite Habs2, HM in Ht. destruct value; [|done]. congruence.
Qed.

(** ** [PureLiteralElimination] *)

Lemma literal_counts_flat cnf :
  literal_counts cnf = foldl count_literal ∅ (concat cnf).
Proof.
  unfold literal_counts. generalize (∅ : gmap Z Z).
  induction cnf as [|c rest IH]; intros m; simpl; [done|].
  rewrite foldl_app. apply IH.
Qed.

Lemma count_literals_key ls x :
  is_Some (foldl count_literal ∅ ls !! x) -> x ∈ ls.
Proof.
  induction ls as [|y ls IH] using rev_ind; simpl.
  - rewrite lookup_empty. by intros [? ?].
  - rewrite foldl_app. simpl. unfold count_literal at 1.
    rewrite elem_of_app, list_elem_of_singleton.
    destruct (decide (y = x)) as [->|Hne]; [auto|].
    rewrite lookup_insert_ne by done. auto.
Qed.

Lemma count_literals_value ls x :
  Z.of_nat (length ls) < 2 ^ 63 ->
  count_of (foldl count_literal ∅ ls) x
  = Z.of_nat (length (filter (fun y => y = x) ls)).
Proof.
  induction ls as [|y ls IH] using rev_ind; intros Hlen.
  - reflexivity.
  - rewrite length_app in Hlen. simpl in Hlen.
    rewrite foldl_app, filter_app, length_app. simpl.
    unfold count_literal at 1, count_of at 1.
    destruct (decide (y = x)) as [->|Hne].
    + rewrite lookup_insert_eq, IH by lia. simpl.
      rewrite filter_cons_True by done. rewrite filter_nil. simpl.
      pose proof (length_filter (fun y => y = x) ls).
      rewrite wrap_int; [lia|]. unfold is_int, int_min, int_max. lia.
    + rewrite lookup_insert_ne by done.
      rewrite filter_cons_False by done. rewrite filter_nil. simpl.
      fold (count_of (foldl count_literal ∅ ls) x). rewrite IH by lia. lia.
Qed.

Lemma pure_test cnf l count :
  small_cnf cnf ->
  literal_counts cnf !! l = Some count ->
  (0 <? count) && (count_of (literal_counts cnf) (neg l) =? 0) = true ->
  pure_in cnf l.
Proof.
  intros Hsmall Hl [_ Hz]%andb_true_iff. apply Z.eqb_eq in Hz.
  rewrite literal_counts_flat in *. split.
  - apply count_literals_key. eauto.
  - intros Hin. rewrite count_literals_value in Hz by done.
    assert (neg l ∈ filter (fun y => y = neg l) (concat cnf)) as Hf
      by (by apply list_elem_of_filter).
    destruct (filter _ _); [by apply elem_of_nil in Hf|simpl in Hz; lia].
Qed.

Lemma pure_in_valid cnf l : int_cnf cnf -> pure_in cnf l -> valid_lit l.
Proof.
  intros Hint [Hl Hn].
  assert (is_int l) as Hi.
  { apply list_elem_of_In, in_concat in Hl as (c & Hc & Hlc).
    eapply int_cnf_elem; [done|by apply list_elem_of_In..]. }
  assert (l <> 0) by (intros ->; by rewrite neg_zero in Hn).
  assert (l <> int_min) by (intros ->; by rewrite neg_int_min in Hn).
  unfold valid_lit, is_int in *. lia.
Qed.

Lemma pure_loop_passing literalCount entries cnf assignment :
  pure_loop literalCount entries cnf assignment
  = (foldl assign_literal cnf (passing literalCount entries),
     foldl record_literal assignment (passing literalCount entries)).
Proof.
  unfold pure_loop, passing. revert cnf assignment.
  induction entries as [|[l count] rest IH]; intros cnf assignment;
    [done|].
  simpl. destruct ((0 <? count) && _) eqn:Htest.
  - rewrite filter_cons_True by done. simpl. apply IH.
  - rewrite filter_cons_False by (simpl; congruence). apply IH.
Qed.

Lemma valid_lit_forms l :
  valid_lit l ->
  (abs l = l /\ neg (abs l) = neg l) \/ (abs l = neg l /\ neg (abs l) = l).
Proof.
  intros [H0 H]. unfold abs. destruct (Z.ltb_spec l 0).
  - right. split; [done|]. apply neg_neg. unfold is_int. lia.
  - left. done.
Qed.

Lemma assign_clause_pure l clause :
  valid_lit l -> neg l ∉ clause ->
  assign_clause (abs l) (0 <? l) clause
  = if decide (l ∈ clause) then None else Some clause.
Proof.
  intros Hv Hn. destruct (decide (l ∈ clause)) as [Hin|Hnin].
  - destruct (assign_clause _ _ _) as [c'|] eqn:Hc; [|done].
    apply assign_clause_keep in Hc as [Hnot _].
    by rewrite lit_of_abs in Hnot.
  - destruct (valid_lit_forms l Hv) as [[E1 E2]|[E1 E2]];
      apply assign_clause_id; rewrite ?E2, ?E1; done.
Qed.

(** Assigning a literal whose negation does not occur only drops clauses. *)
Lemma assign_pure_filter cnf l :
  valid_lit l -> neg l ∉ concat cnf ->
  assign_literal cnf l = filter (fun clause => l ∉ clause) cnf.
Proof.
  intros Hv. unfold assign_literal.
  induction cnf as [|c rest IH]; simpl; [done|].
  rewrite elem_of_app. intros Hn.
  rewrite assign_clause_pure by tauto.
  case_decide.
  - rewrite filter_cons_False by tauto. apply IH. tauto.
  - rewrite filter_cons_True by done. f_equal. apply IH. tauto.
Qed.

Lemma concat_filter_sub (P : Clause -> Prop) `{!forall c, Decision (P c)}
    (cnf : CNF) l :
  l ∈ concat (filter P cnf) -> l ∈ concat cnf.
Proof.
  rewrite !list_elem_of_In, !in_concat.
  intros (c & Hc & Hl). exists c. split; [|done].
  apply list_elem_of_In. apply list_elem_of_In in Hc.
  by apply list_elem_of_filter in Hc as [_ ?].
Qed.

Lemma filter_all {A} (P : A -> Prop) `{!forall x, Decision (P x)} (l : list A) :
  (forall x, P x) -> filter P l = l.
Proof.
  intros HP. induction l as [|x l IH]; [done|].
  rewrite filter_cons_True by done. by rewrite IH.
Qed.

Lemma pure_fold_filter cnf ps :
  int_cnf cnf -> Forall (pure_in cnf) ps ->
  foldl assign_literal cnf ps
  = filter (fun clause => Forall (fun l => l ∉ clause) ps) cnf.
Proof.
  intros Hint Hps.
  assert (Forall valid_lit ps) as Hvalid.
  { eapply Forall_impl; [exact Hps|]. intros l. by apply pure_in_valid. }
  assert (Forall (fun l => neg l ∉ concat cnf) ps) as Hneg.
  { eapply Forall_impl; [exact Hps|]. by intros l [_ ?]. }
  clear Hps Hint.
  cut (forall cnf', (forall l, l ∈ concat cnf' -> l ∈ concat cnf) ->
         foldl assign_literal cnf' ps
         = filter (fun clause => Forall (fun l => l ∉ clause) ps) cnf');
    [by auto|].
  induction ps as [|p ps IH]; intros cnf' Hsub; simpl.
  - symmetry. apply filter_all. intros. constructor.
  - inversion Hvalid; inversion Hneg; subst.
    rewrite assign_pure_filter by auto.
    rewrite IH by (try done; intros l Hl; apply Hsub;
                   by eapply concat_filter_sub).
    rewrite list_filter_filter. apply list_filter_iff.
    intros c. rewrite Forall_cons. tauto.
Qed.

Lemma record_fold_other ps assignment v :
  Forall (fun l => abs l <> v) ps ->
  foldl record_literal assignment ps !! v = assignment !! v.
Proof.
  revert assignment. induction ps as [|p ps IH]; intros A Hps; [done|].
  inversion Hps; subst. simpl. rewrite IH by done.
  unfold record_literal. by rewrite lookup_insert_ne.
Qed.

Lemma record_fold_pure ps assignment l :
  l ∈ ps -> (forall l', l' ∈ ps -> abs l' = abs l -> l' = l) ->
  foldl record_literal assignment ps !! abs l = Some (0 <? l).
Proof.
  revert assignment. induction ps as [|p ps IH]; intros A Hl Hinj.
  - by apply elem_of_nil in Hl.
  - simpl. destruct (decide (l ∈ ps)) as [Hin|Hnin].
    + apply IH; [done|]. intros l' Hl'. apply Hinj. by right.
    + apply elem_of_cons in Hl as [->|?]; [|done].
      rewrite record_fold_other.
      * unfold record_literal. by rewrite lookup_insert_eq.
      * apply Forall_forall. intros l' Hl' Habs.
        apply Hnin. rewrite <- (Hinj l'); [done|by right|done].
Qed.

Lemma pure_in_abs_inj cnf l l' :
  int_cnf cnf -> pure_in cnf l -> l' ∈ concat cnf -> abs l' = abs l ->
  l' = l.
Proof.
  intros Hint Hl Hl' Habs.
  pose proof (pure_in_valid _ _ Hint Hl) as Hv. destruct Hl as [Hl Hn].
  assert (is_int l') as Hi.
  { apply list_elem_of_In, in_concat in Hl' as (c & Hc & Hlc).
    eapply int_cnf_elem; [done|by apply list_elem_of_In..]. }
  destruct (abs_inv l' (abs l) Hi Habs) as [E|E];
    destruct (valid_lit_forms l Hv) as [[E1 E2]|[E1 E2]]; congruence.
Qed.

(** What [PureLiteralElimination] returns: the clauses that hold none of the
    pure literals [ps], and the map with each of them recorded. *)
Lemma PureLiteralElimination_closed cnf assignment :
  int_cnf cnf -> small_cnf cnf ->
  exists ps,
    Forall (pure_in cnf) ps
    /\ PureLiteralElimination cnf assignment
       = (filter (fun clause => Forall (fun l => l ∉ clause) ps) cnf,
          foldl record_literal assignment ps).
Proof.
  intros Hint Hsmall. unfold PureLiteralElimination.
  rewrite pure_loop_passing.
  exists (passing (literal_counts cnf) (map_to_list (literal_counts cnf))).
  assert (Forall (pure_in cnf)
            (passing (literal_counts cnf)
                     (map_to_list (literal_counts cnf)))) as Hps.
  { apply Forall_forall. intros l Hl. unfold passing in Hl.
    apply list_elem_of_fmap in Hl as ([l' count] & -> & Hin).
    apply list_elem_of_filter in Hin as [Htest Hin].
    apply elem_of_map_to_list in Hin. by eapply pure_test. }
  split; [done|]. by rewrite pure_fold_filter.
Qed.

Section pure_result.
Variables (cnf : CNF) (assignment : gmap Z bool) (ps : list Z).
Hypothesis Hint : int_cnf cnf.
Hypothesis Hps : Forall (pure_in cnf) ps.

Let cnf2 := filter (fun clause => Forall (fun l => l ∉ clause) ps) cnf.
Let assignment2 := foldl record_literal assignment ps.

Lemma pure_result_sub clause : clause ∈ cnf2 -> clause ∈ cnf.
Proof. by intros [_ ?]%list_elem_of_filter. Qed.

Lemma pure_result_frame v :
  v ∉ variables cnf -> assignment2 !! v = assignment !! v.
Proof.
  intros Hv. apply record_fold_other.
  eapply Forall_impl; [exact Hps|]. intros l [Hl _] <-. apply Hv.
  apply list_elem_of_In, in_concat in Hl as (c & Hc & Hlc).
  apply elem_of_variables. exists c, l. by rewrite !list_elem_of_In.
Qed.

Lemma pure_result_recorded l :
  l ∈ ps ->
  (abs l ∉ variables cnf2) /\ assignment2 !! abs l = Some (0 <? l).
Proof.
  intros Hl. rewrite Forall_forall in Hps. split.
  - intros (c & l' & Hc & Hl' & Habs)%elem_of_variables.
    apply list_elem_of_filter in Hc as [Hnone Hc].
    rewrite Forall_forall in Hnone.
    assert (l' = l) as ->; [|by eapply Hnone].
    eapply pure_in_abs_inj; [done|by apply Hps| |done].
    apply list_elem_of_In, in_concat. exists c.
    by rewrite <- !list_elem_of_In.
  - apply record_fold_pure; [done|]. intros l' Hl' Habs.
    eapply pure_in_abs_inj; [done|by apply Hps| |done].
    by apply Hps in Hl' as [? _].
Qed.

Lemma pure_result_sound M :
  (forall v, v ∉ variables cnf2 -> M !! v = assignment2 !! v) ->
  satisfies M cnf2 = true -> satisfies M cnf = true.
Proof.
  intros Hagree. rewrite !satisfies_spec. intros H c Hc.
  destruct (decide (Forall (fun l => l ∉ c) ps)) as [Hnone|Hsome].
  - apply H. by apply list_elem_of_filter.
  - apply not_Forall_Exists, Exists_exists in Hsome as (l & Hl & Hin);
      [|apply _].
    apply dec_stable in Hin. exists l. split; [done|].
    destruct (pure_result_recorded l Hl) as [Hout Hrec].
    apply lit_true_valid.
    + rewrite Forall_forall in Hps. eapply pure_in_valid; eauto.
    + by rewrite Hagree.
Qed.

Lemma pure_result_complete M :
  satisfies M cnf = true -> satisfies M cnf2 = true.
Proof.
  rewrite !satisfies_spec. intros H c Hc.
  by apply H, pure_result_sub.
Qed.
End pure_result.

(** ** Simplification steps *)

Lemma reduces_refl cnf assignment : reduces cnf assignment cnf assignment.
Proof. repeat split; auto. Qed.

Lemma reduces_trans cnf1 a1 cnf2 a2 cnf3 a3 :
  reduces cnf1 a1 cnf2 a2 -> reduces cnf2 a2 cnf3 a3 ->
  reduces cnf1 a1 cnf3 a3.
Proof.
  intros (Hv1 & Hf1 & Hs1) (Hv2 & Hf2 & Hs2). split; [set_solver|]. split.
  - intros v Hv. rewrite Hf2 by set_solver. auto.
  - intros M Hagree Hsat. apply Hs1; [|by apply Hs2].
    intros v Hv. rewrite Hagree by set_solver. apply Hf2, Hv.
Qed.

Lemma reduces_result cnf a cnf' a' verdict M :
  reduces cnf a cnf' a' -> result_ok cnf' a' verdict M ->
  result_ok cnf a verdict M.
Proof.
  intros (Hv & Hf & Hs) [Hagree Hsat]. split.
  - intros v Hnot. rewrite Hagree by set_solver. by apply Hf.
  - intros Hverdict. apply Hs; auto.
Qed.

(** Fixing a variable of the formula, starting from any map that agrees with
    [assignment] outside the formula. *)
Lemma reduces_assign cnf assignment assignment' variable value :
  int_cnf cnf -> variable ∈ variables cnf -> 0 < variable <= int_max ->
  (forall v, v ∉ variables cnf -> assignment' !! v = assignment !! v) ->
  reduces cnf assignment (assign cnf variable value)
          (<[variable := value]> assignment').
Proof.
  intros Hint Hin Hv Hagree.
  pose proof (variables_assign cnf variable value Hint) as Hsub.
  split; [set_solver|]. split.
  - intros v Hnot. rewrite lookup_insert_ne by set_solver. auto.
  - intros M HM Hsat. eapply assign_sound; [done| |done].
    rewrite HM by set_solver. by rewrite lookup_insert_eq.
Qed.

Lemma variables_unit cnf unit : [unit] ∈ cnf -> abs unit ∈ variables cnf.
Proof.
  intros H. apply elem_of_variables. exists [unit], unit.
  repeat split; [done|apply list_elem_of_here].
Qed.

Lemma unit_loop_reduces fuel cnf assignment cnf' assignment' :
  valid_cnf cnf ->
  unit_loop fuel cnf assignment = Some (cnf', assignment') ->
  valid_cnf cnf'
  /\ reduces cnf assignment cnf' assignment'
  /\ (forall M, satisfies M cnf = true -> satisfies M cnf' = true).
Proof.
  revert cnf assignment.
  induction fuel as [|fuel IH]; intros cnf assignment Hvalid; [done|].
  simpl. destruct (find_unit cnf) as [unit|] eqn:Hunit.
  - intros Hloop. apply find_unit_Some in Hunit.
    assert (valid_lit unit) as Hu.
    { eapply valid_cnf_elem; [done..|apply list_elem_of_here]. }
    destruct (abs_valid unit Hu) as [_ Habs].
    apply IH in Hloop as (Hvalid' & Hred & Hcomplete);
      [|by apply assign_Forall].
    split; [done|]. split.
    + eapply reduces_trans; [|exact Hred].
      apply reduces_assign; auto using valid_cnf_int, variables_unit.
    + intros M Hsat. apply Hcomplete.
      apply assign_complete; auto using valid_cnf_int.
      apply lit_true_valid; [done|].
      rewrite satisfies_spec in Hsat. destruct (Hsat _ Hunit) as (l & Hl & Ht).
      by apply list_elem_of_singleton in Hl as ->.
  - intros [= <- <-]. split; [done|]. split; [apply reduces_refl|auto].
Qed.

Lemma PureLiteralElimination_reduces cnf assignment cnf' assignment' :
  int_cnf cnf -> small_cnf cnf ->
  PureLiteralElimination cnf assignment = (cnf', assignment') ->
  (forall clause, clause ∈ cnf' -> clause ∈ cnf)
  /\ reduces cnf assignment cnf' assignment'
  /\ (forall M, satisfies M cnf = true -> satisfies M cnf' = true).
Proof.
  intros Hint Hsmall Heq.
  destruct (PureLiteralElimination_closed cnf assignment Hint Hsmall)
    as (ps & Hps & Hclosed).
  rewrite Hclosed in Heq. injection Heq as <- <-.
  split; [apply pure_result_sub|]. split; [|by apply pure_result_complete].
  split; [|split].
  - intros v (c & l & Hc & Hl & Habs)%elem_of_variables.
    apply elem_of_variables. exists c, l.
    split; [by eapply pure_result_sub|done].
  - by apply pure_result_frame.
  - by apply pure_result_sound.
Qed.

(** ** Sub-formulas *)

Lemma sub_Forall (P : Z -> Prop) (cnf cnf' : CNF) :
  (forall clause, clause ∈ cnf' -> clause ∈ cnf) ->
  Forall (Forall P) cnf -> Forall (Forall P) cnf'.
Proof. rewrite !Forall_forall. auto. Qed.

Lemma sub_no_empty (cnf cnf' : CNF) :
  (forall clause, clause ∈ cnf' -> clause ∈ cnf) ->
  no_empty_clause cnf = true -> no_empty_clause cnf' = true.
Proof. rewrite !no_empty_clause_spec, !Forall_forall. auto. Qed.

Lemma select_variable_elem cnf :
  no_empty_clause cnf = true -> cnf <> [] ->
  exists clause l, clause ∈ cnf /\ l ∈ clause /\ select_variable cnf = abs l.
Proof.
  destruct cnf as [|[|l c] rest]; [done|done|]. intros _ _.
  exists (l :: c), l. repeat split; apply list_elem_of_here.
Qed.

Lemma length_zero_nil {A} (l : list A) : (length l =? 0)%nat = true -> l = [].
Proof. destruct l; [done|]. simpl. discriminate. Qed.

Lemma empty_clause_unsat M cnf :
  no_empty_clause cnf = false -> satisfies M cnf = false.
Proof.
  intros Hempty. destruct (satisfies M cnf) eqn:Hsat; [|done].
  rewrite <- Hempty. symmetry. apply no_empty_clause_spec, Forall_forall.
  intros c Hc ->. rewrite satisfies_spec in Hsat.
  destruct (Hsat [] Hc) as (l & Hl & _). by apply elem_of_nil in Hl.
Qed.

Lemma lit_true_insert M v value l :
  M !! v = None -> lit_true M l = true ->
  lit_true (<[v := value]> M) l = true.
Proof.
  unfold lit_true. intros Hnone.
  destruct (decide (v = abs l)) as [->|Hne].
  - by rewrite Hnone.
  - by rewrite lookup_insert_ne.
Qed.

Lemma satisfies_insert M v value cnf :
  M !! v = None -> satisfies M cnf = true ->
  satisfies (<[v := value]> M) cnf = true.
Proof.
  intros Hnone. rewrite !satisfies_spec. intros H c Hc.
  destruct (H c Hc) as (l & Hl & Ht). exists l.
  split; [done|]. by apply lit_true_insert.
Qed.

(** A formula is satisfiable when one of the two branches on a variable
    is. *)
Lemma branch_complete M cnf variable :
  int_cnf cnf -> 0 < variable <= int_max ->
  satisfies M cnf = true ->
  (exists M', satisfies M' (assign cnf variable true) = true)
  \/ (exists M', satisfies M' (assign cnf variable false) = true).
Proof.
  intros Hint Hv Hsat. destruct (M !! variable) as [[]|] eqn:HM.
  - left. exists M. by apply assign_complete.
  - right. exists M. by apply assign_complete.
  - left. exists (<[variable := true]> M). apply assign_complete; auto.
    + by rewrite lookup_insert_eq.
    + by apply satisfies_insert.
Qed.

(** ** [DPLL] *)

Lemma filter_size (P : Clause -> Prop) `{!forall c, Decision (P c)}
    (cnf : CNF) :
  (cnf_size (filter P cnf) <= cnf_size cnf)%nat.
Proof.
  unfold cnf_size, CNF in *. induction cnf as [|c rest IH]; [done|].
  rewrite filter_cons.
  case_decide; simpl; rewrite ?length_app; lia.
Qed.

Lemma sub_length_size (cnf cnf' : CNF) (ps : list Z) :
  cnf' = filter (fun clause => Forall (fun l => l ∉ clause) ps) cnf ->
  (length cnf' <= length cnf)%nat /\ (cnf_size cnf' <= cnf_size cnf)%nat.
Proof. intros ->. split; [apply length_filter|apply filter_size]. Qed.

Lemma PureLiteralElimination_smaller cnf assignment cnf' assignment' :
  int_cnf cnf -> small_cnf cnf ->
  PureLiteralElimination cnf assignment = (cnf', assignment') ->
  (length cnf' <= length cnf)%nat /\ (cnf_size cnf' <= cnf_size cnf)%nat.
Proof.
  intros Hint Hsmall Heq.
  destruct (PureLiteralElimination_closed cnf assignment Hint Hsmall)
    as (ps & _ & Hclosed).
  rewrite Hclosed in Heq. injection Heq as <- _.
  by eapply sub_length_size.
Qed.

Lemma unit_loop_smaller fuel cnf assignment cnf' assignment' :
  unit_loop fuel cnf assignment = Some (cnf', assignment') ->
  (cnf_size cnf' <= cnf_size cnf)%nat.
Proof.
  revert cnf assignment. induction fuel as [|fuel IH]; intros cnf A; [done|].
  simpl. destruct (find_unit cnf) as [unit|].
  - intros H%IH. pose proof (assign_size cnf (abs unit) (0 <? unit)). lia.
  - by intros [= <- _].
Qed.

(** Whatever the bounds, a result of [DPLL] is right: the map differs from
    the initial one on variables of the formula only, a verdict
    "satisfiable" comes with a map that satisfies the formula, and a verdict
    "unsatisfiable" is given to formulas no map satisfies. *)
Lemma DPLL_result loops depth cnf assignment verdict M :
  valid_cnf cnf -> small_cnf cnf ->
  DPLL loops depth cnf assignment = Some (verdict, M) ->
  result_ok cnf assignment verdict M
  /\ (verdict = false -> forall M', satisfies M' cnf = false).
Proof.
  revert cnf assignment verdict M.
  induction depth as [|depth IH]; intros cnf A verdict M Hvalid Hsmall;
    [done|].
  simpl. unfold UnitPropagation.
  destruct (unit_loop loops cnf A) as [[cnf1 A1]|] eqn:Hunit; [|done].
  pose proof (unit_loop_smaller _ _ _ _ _ Hunit) as Hsize1.
  apply unit_loop_reduces in Hunit as (Hvalid1 & Hred1 & Hcomplete1);
    [|done].
  destruct (no_empty_clause cnf1) eqn:Hok; simpl.
  2:{ intros [= <- <-]. split.
      - eapply reduces_result; [exact Hred1|]. by split.
      - intros _ M'. destruct (satisfies M' cnf) eqn:Hsat; [|done].
        apply Hcomplete1 in Hsat.
        by rewrite (empty_clause_unsat M' cnf1 Hok) in Hsat. }
  assert (small_cnf cnf1) as Hsmall1 by (unfold small_cnf in *; lia).
  destruct (PureLiteralElimination cnf1 A1) as [cnf2 A2] eqn:Hpure.
  pose proof (PureLiteralElimination_smaller _ _ _ _
                (valid_cnf_int _ Hvalid1) Hsmall1 Hpure) as [_ Hsize2].
  apply PureLiteralElimination_reduces in Hpure
    as (Hsub & Hred2 & Hcomplete2); [|by apply valid_cnf_int|done].
  pose proof (reduces_trans _ _ _ _ _ _ Hred1 Hred2) as Hred.
  pose proof (sub_Forall _ _ _ Hsub Hvalid1) as Hvalid2.
  assert (small_cnf cnf2) as Hsmall2 by (unfold small_cnf in *; lia).
  destruct (length cnf2 =? 0)%nat eqn:Hlen.
  { intros [= <- <-]. apply length_zero_nil in Hlen as ->. split; [|done].
    eapply reduces_result; [exact Hred|]. by split. }
  assert (cnf2 <> []) as Hne by (intros ->; discriminate).
  destruct (select_variable_elem cnf2 (sub_no_empty _ _ Hsub Hok) Hne)
    as (c & l & Hc & Hl & Hsel).
  set (variable := select_variable cnf2) in *.
  assert (variable ∈ variables cnf2) as Hvar.
  { apply elem_of_variables. exists c, l. by rewrite Hsel. }
  assert (0 < variable <= int_max) as Hpos.
  { rewrite Hsel. eapply abs_valid, valid_cnf_elem; eauto. }
  pose proof (valid_cnf_int _ Hvalid2) as Hint2.
  assert (forall value, small_cnf (assign cnf2 variable value)) as Hsmall3.
  { intros value. pose proof (assign_size cnf2 variable value).
    unfold small_cnf in *. lia. }
  destruct (DPLL loops depth (assign cnf2 variable true)
                 (<[variable := true]> A2))
    as [[[] M3]|] eqn:Htrue; [| |done].
  - intros [= <- <-].
    apply IH in Htrue as [Hres _]; [|by apply assign_Forall|done].
    split; [|done]. eapply reduces_result; [exact Hred|].
    eapply reduces_result; [|exact Hres]. by apply reduces_assign.
  - apply IH in Htrue as [[Hframe3 _] Hunsat3]; [|by apply assign_Forall|done].
    intros Hfalse.
    apply IH in Hfalse as [Hres Hunsat4]; [|by apply assign_Forall|done].
    split.
    + eapply reduces_result; [exact Hred|].
      eapply reduces_result; [|exact Hres]. apply reduces_assign; auto.
      intros v Hv. rewrite Hframe3.
      * apply lookup_insert_ne. set_solver.
      * pose proof (variables_assign cnf2 variable true Hint2). set_solver.
    + intros -> M'. destruct (satisfies M' cnf) eqn:Hsat; [|done].
      apply Hcomplete1, Hcomplete2 in Hsat.
      destruct (branch_complete M' cnf2 variable Hint2 Hpos Hsat)
        as [[M'' HM'']|[M'' HM'']].
      * by rewrite Hunsat3 in HM''.
      * by rewrite Hunsat4 in HM''.
Qed.

(** Whatever the counters say, the second loop of [PureLiteralElimination]
    is a sequence of calls of [assign]: it adds no variable and no clause. *)
Lemma assign_fold_smaller cnf ps :
  int_cnf cnf ->
  int_cnf (foldl assign_literal cnf ps)
  /\ variables (foldl assign_literal cnf ps) ⊆ variables cnf
  /\ (length (foldl assign_literal cnf ps) <= length cnf)%nat.
Proof.
  revert cnf. induction ps as [|p ps IH]; intros cnf Hint; simpl.
  - repeat split; [done|set_solver|lia].
  - destruct (IH (assign_literal cnf p)) as (Hint' & Hvars & Hlen).
    { by apply assign_Forall. }
    split; [done|]. split.
    + pose proof (variables_assign cnf (abs p) (0 <? p) Hint).
      unfold assign_literal in *. set_solver.
    + pose proof (assign_length cnf (abs p) (0 <? p)).
      unfold assign_literal in *. lia.
Qed.

Lemma PureLiteralElimination_int cnf assignment cnf' assignment' :
  int_cnf cnf ->
  PureLiteralElimination cnf assignment = (cnf', assignment') ->
  int_cnf cnf' /\ variables cnf' ⊆ variables cnf
  /\ (length cnf' <= length cnf)%nat.
Proof.
  unfold PureLiteralElimination. rewrite pure_loop_passing.
  intros Hint [= <- _]. by apply assign_fold_smaller.
Qed.

(** The branching variable is a variable of the formula, unless the formula
    has only empty clauses. *)
Lemma select_variable_cases cnf :
  select_variable cnf ∈ variables cnf
  \/ Forall (fun clause => clause = []) cnf.
Proof.
  induction cnf as [|[|l c] rest IH]; simpl.
  - right. constructor.
  - destruct IH as [IH|IH].
    + left. apply elem_of_variables in IH as (c & l & Hc & Hl & Habs).
      apply elem_of_variables. exists c, l. split; [by right|done].
    + right. by constructor.
  - left. apply elem_of_variables. exists (l :: c), l.
    repeat split; apply list_elem_of_here.
Qed.

Lemma variables_only_empty cnf :
  Forall (fun clause => clause = []) cnf -> variables cnf = ∅.
Proof.
  intros H. apply set_eq. intros v. split; [|set_solver].
  intros (c & l & Hc & Hl & _)%elem_of_variables.
  rewrite Forall_forall in H. rewrite (H c Hc) in Hl.
  by apply elem_of_nil in Hl.
Qed.

Lemma assign_only_empty cnf variable value :
  Forall (fun clause => clause = []) cnf -> assign cnf variable value = cnf.
Proof.
  intros H. apply assign_id. eapply Forall_impl; [exact H|].
  intros c ->. split; apply not_elem_of_nil.
Qed.

(** A formula with a clause and without variables is refused at once. *)
Lemma DPLL_only_empty loops depth cnf assignment :
  Forall (fun clause => clause = []) cnf -> cnf <> [] ->
  DPLL (S loops) (S depth) cnf assignment = Some (false, assignment).
Proof.
  intros Hempty Hne. simpl. unfold UnitPropagation. simpl.
  assert (find_unit cnf = None) as ->.
  { clear Hne. induction Hempty as [|c rest -> _ IH]; simpl; auto. }
  assert (no_empty_clause cnf = false) as ->; [|done].
  destruct cnf as [|c rest]; [done|]. by inversion Hempty; subst.
Qed.

Lemma variables_nonempty cnf :
  no_empty_clause cnf = true -> cnf <> [] ->
  (0 < size (variables cnf))%nat.
Proof.
  intros Hok Hne.
  destruct (select_variable_elem cnf Hok Hne) as (c & l & Hc & Hl & _).
  assert (abs l ∈ variables cnf) as Hin.
  { apply elem_of_variables. eauto. }
  destruct (decide (size (variables cnf) = 0%nat)) as [Hz|]; [|lia].
  apply size_empty_inv in Hz. set_solver.
Qed.

(** Every recursive call has fewer variables: [DPLL] returns within a
    nesting of one more than the number of variables. *)
Lemma DPLL_returns loops depth cnf assignment :
  int_cnf cnf ->
  (length cnf < loops)%nat -> (size (variables cnf) < depth)%nat ->
  exists verdict M, DPLL loops depth cnf assignment = Some (verdict, M).
Proof.
  revert cnf assignment.
  induction depth as [|depth IH]; intros cnf A Hint Hloops Hdepth; [lia|].
  simpl. unfold UnitPropagation.
  destruct (unit_loop_returns loops cnf A Hint Hloops)
    as (cnf1 & A1 & -> & _ & Hint1 & Hlen1 & _ & Hvars1).
  destruct (no_empty_clause cnf1) eqn:Hok; simpl; [|eauto].
  destruct (PureLiteralElimination cnf1 A1) as [cnf2 A2] eqn:Hpure.
  apply PureLiteralElimination_int in Hpure as (Hint2 & Hvars2 & Hlen2);
    [|done].
  destruct (length cnf2 =? 0)%nat eqn:Hlen; [eauto|].
  assert (cnf2 <> []) as Hne2 by (intros ->; discriminate).
  assert (cnf1 <> []) as Hne1 by (intros ->; destruct cnf2; simpl in *; lia).
  pose proof (variables_nonempty cnf1 Hok Hne1) as Hpos.
  pose proof (subseteq_size _ _ Hvars1) as Hs1.
  pose proof (subseteq_size _ _ Hvars2) as Hs2.
  set (variable := select_variable cnf2).
  assert (forall value B, exists verdict M,
             DPLL loops depth (assign cnf2 variable value) B
             = Some (verdict, M)) as Hbranch.
  { intros value B.
    destruct (select_variable_cases cnf2) as [Hvar|Hempty].
    - apply IH.
      + by apply assign_Forall.
      + pose proof (assign_length cnf2 variable value). lia.
      + pose proof (variables_assign_size cnf2 variable value Hint2 Hvar).
        lia.
    - rewrite assign_only_empty by done.
      destruct loops as [|loops]; [lia|]. destruct depth as [|depth]; [lia|].
      rewrite DPLL_only_empty by done. eauto. }
  destruct (Hbranch true (<[variable := true]> A2)) as ([] & M3 & ->);
    [eauto|]. apply Hbranch.
Qed.

(** ** Truth tables *)

Lemma all_assignments_total vs (M : gmap Z bool) :
  exists M', M' ∈ all_assignments vs
             /\ forall v, v ∈ vs -> M' !! v = Some (default false (M !! v)).
Proof.
  induction vs as [|v vs (M' & Hin & Hlook)]; simpl.
  - exists ∅. split; [apply list_elem_of_here|]. by intros v ?%elem_of_nil.
  - exists (<[v := default false (M !! v)]> M'). split.
    + apply elem_of_app. destruct (default false (M !! v));
        [left|right]; by apply list_elem_of_fmap_2.
    + intros v' Hv'. destruct (decide (v = v')) as [->|Hne].
      * by rewrite lookup_insert_eq.
      * rewrite lookup_insert_ne by done. apply Hlook.
        by apply elem_of_cons in Hv' as [->|?].
Qed.

Lemma satisfies_agree (M M' : gmap Z bool) cnf :
  (forall v b, v ∈ variables cnf -> M !! v = Some b -> M' !! v = Some b) ->
  satisfies M cnf = true -> satisfies M' cnf = true.
Proof.
  intros Hagree. rewrite !satisfies_spec. intros H c Hc.
  destruct (H c Hc) as (l & Hl & Ht). exists l. split; [done|].
  unfold lit_true in *. destruct (M !! abs l) as [b|] eqn:HM; [|done].
  rewrite (Hagree (abs l) b); [done| |done].
  apply elem_of_variables. eauto.
Qed.

(** The truth table finds a satisfying row exactly when some map satisfies
    the formula. *)
Lemma brute_force_spec cnf :
  brute_force cnf = true <-> exists M, satisfies M cnf = true.
Proof.
  unfold brute_force. rewrite existsb_exists. split.
  - intros (M & _ & HM). eauto.
  - intros (M & HM).
    destruct (all_assignments_total (elements (variables cnf)) M)
      as (M' & Hin & Hlook).
    exists M'. split; [by apply list_elem_of_In|].
    eapply satisfies_agree; [|exact HM].
    intros v b Hv Hb. rewrite Hlook by (by apply elem_of_elements).
    by rewrite Hb.
Qed.

(** * The engine's properties *)

Ltac solve_cnf :=
  repeat first [ apply Forall_nil | apply Forall_cons; split ];
  unfold valid_lit, is_int, int_min, int_max; lia.

Ltac solve_small := unfold small_cnf, cnf_size; simpl; lia.

(** X1: a returned verdict "satisfiable" of the recursive search comes with
    a map that makes a literal of every clause true. *)
Theorem DPLL_sound loops depth cnf assignment M :
  valid_cnf cnf -> small_cnf cnf ->
  DPLL loops depth cnf assignment = Some (true, M) ->
  satisfies M cnf = true.
Proof.
  intros Hvalid Hsmall HDPLL.
  destruct (DPLL_result _ _ _ _ _ _ Hvalid Hsmall HDPLL) as [[_ Hsat] _].
  by apply Hsat.
Qed.

(** C1 (the [iterativeDPLL] half fails): on [(1 \/ 2) /\ (-1 \/ -2)] the
    work-stack search answers "satisfiable" with the map [{2: false}], which
    holds no value for the branching variable 1 and makes no literal of the
    clause [1; 2] true. *)
Theorem iterativeDPLL_unsound :
  iterativeDPLL 3 3 [[1; 2]; [-1; -2]] ∅ = Some (true, {[2 := false]})
  /\ clause_true {[2 := false]} [1; 2] = false
  /\ satisfies {[2 := false]} [[1; 2]; [-1; -2]] = false.
Proof. by vm_compute. Qed.

(** C2: on a formula of the data model with at most 16 variables and the
    empty initial map, [DPLL] returns, and its verdict is the verdict of the
    truth table over the formula's variables. *)
Theorem DPLL_truth_table cnf :
  valid_cnf cnf -> small_cnf cnf -> (size (variables cnf) <= 16)%nat ->
  exists M,
    DPLL (S (length cnf)) (S (size (variables cnf))) cnf ∅
    = Some (brute_force cnf, M).
Proof.
  intros Hvalid Hsmall _.
  destruct (DPLL_returns (S (length cnf)) (S (size (variables cnf))) cnf ∅)
    as (verdict & M & HDPLL); [by apply valid_cnf_int|lia..|].
  exists M. rewrite HDPLL. do 2 f_equal.
  destruct (DPLL_result _ _ _ _ _ _ Hvalid Hsmall HDPLL) as [[_ Hsat] Hunsat].
  destruct verdict.
  - symmetry. apply brute_force_spec. exists M. by apply Hsat.
  - destruct (brute_force cnf) eqn:Hbf; [|done].
    apply brute_force_spec in Hbf as [M' HM'].
    by rewrite Hunsat in HM'.
Qed.

Lemma DPLL_truth_table_witness :
  valid_cnf [[1; 2]; [-1; 2]; [-2; 3]; [-3; -1]]
  /\ exists M,
       DPLL 5 4 [[1; 2]; [-1; 2]; [-2; 3]; [-3; -1]] ∅
       = Some (brute_force [[1; 2]; [-1; 2]; [-2; 3]; [-3; -1]], M).
Proof.
  split; [solve_cnf|].
  apply (DPLL_truth_table [[1; 2]; [-1; 2]; [-2; 3]; [-3; -1]]);
    [solve_cnf|solve_small|vm_compute; lia].
Defined.

(** C8: [UnitPropagation] returns; when it reports ok the returned formula
    has no clause of exactly one literal and no empty clause; and it reports
    a conflict exactly when the returned formula has an empty clause. *)
Theorem UnitPropagation_postconditions fuel cnf assignment :
  int_cnf cnf -> (length cnf < fuel)%nat ->
  exists cnf' ok assignment',
    UnitPropagation fuel cnf assignment = Some (cnf', ok, assignment')
    /\ (ok = true ->
        Forall (fun clause => length clause <> 1%nat /\ clause <> []) cnf')
    /\ (ok = false <-> [] ∈ cnf').
Proof.
  intros Hint Hfuel. unfold UnitPropagation.
  destruct (unit_loop_returns fuel cnf assignment Hint Hfuel)
    as (cnf' & assignment' & -> & Hnone & _).
  exists cnf', (no_empty_clause cnf'), assignment'. split; [done|].
  apply find_unit_None in Hnone. split.
  - intros Hok%no_empty_clause_spec.
    rewrite Forall_forall in *. intros c Hc. split; auto.
  - split.
    + intros Hconflict. destruct (decide ([] ∈ cnf')) as [|Hnot]; [done|].
      assert (no_empty_clause cnf' = true) as Hok; [|congruence].
      apply no_empty_clause_spec, Forall_forall. by intros c Hc ->.
    + intros Hin. destruct (no_empty_clause cnf') eqn:Hok; [|done].
      apply no_empty_clause_spec in Hok. rewrite Forall_forall in Hok.
      by destruct (Hok [] Hin).
Qed.

Lemma UnitPropagation_postconditions_witness :
  int_cnf [[1]; [-1; 2]; [-2; 3; 4]; [-3; -4]]
  /\ exists cnf' ok assignment',
       UnitPropagation 5 [[1]; [-1; 2]; [-2; 3; 4]; [-3; -4]] ∅
       = Some (cnf', ok, assignment')
       /\ (ok = true ->
           Forall (fun clause => length clause <> 1%nat /\ clause <> []) cnf')
       /\ (ok = false <-> [] ∈ cnf').
Proof.
  split; [solve_cnf|].
  apply (UnitPropagation_postconditions 5
           [[1]; [-1; 2]; [-2; 3; 4]; [-3; -4]] ∅); [solve_cnf|simpl; lia].
Defined.

(** C9: [DPLL] returns on every formula, within a nesting of calls of one
    more than the number of its variables: [assign] leaves no occurrence of
    the variable it is given, and the variable a branching step gives it is a
    variable of the formula, so each branch has fewer variables. *)
Theorem DPLL_terminates cnf assignment :
  int_cnf cnf ->
  (exists verdict M,
      DPLL (S (length cnf)) (S (size (variables cnf))) cnf assignment
      = Some (verdict, M))
  /\ (forall variable value,
         Forall (fun clause => (variable ∉ clause) /\ (neg variable ∉ clause))
                (assign cnf variable value)
         /\ variables (assign cnf variable value)
            ⊆ variables cnf ∖ {[variable]})
  /\ (no_empty_clause cnf = true -> cnf <> [] ->
      forall value,
        (size (variables (assign cnf (select_variable cnf) value))
         < size (variables cnf))%nat).
Proof.
  intros Hint. split; [|split].
  - apply DPLL_returns; [done|lia..].
  - intros variable value.
    split; [apply assign_eliminates|by apply variables_assign].
  - intros Hok Hne value. apply variables_assign_size; [done|].
    destruct (select_variable_elem cnf Hok Hne) as (c & l & Hc & Hl & ->).
    apply elem_of_variables. eauto.
Qed.

Lemma DPLL_terminates_witness :
  int_cnf [[0; 1]; [-1; 2]; [-2; int_min]; [-1; -2]]
  /\ exists verdict M,
       DPLL 5 5 [[0; 1]; [-1; 2]; [-2; int_min]; [-1; -2]] ∅
       = Some (verdict, M).
Proof.
  split; [solve_cnf|].
  apply (DPLL_terminates [[0; 1]; [-1; 2]; [-2; int_min]; [-1; -2]] ∅).
  solve_cnf.
Defined.



(** C5 (the assignments differ): on [(1 \/ 2) /\ (-1 \/ -2)] both searches
    answer "satisfiable", the recursive one with [{1: true, 2: false}] and
    the work-stack one with [{2: false}]. *)
Theorem DPLL_iterativeDPLL_differ :
  DPLL 3 3 [[1; 2]; [-1; -2]] ∅ = Some (true, <[1 := true]> {[2 := false]})
  /\ iterativeDPLL 3 3 [[1; 2]; [-1; -2]] ∅ = Some (true, {[2 := false]})
  /\ DPLL 3 3 [[1; 2]; [-1; -2]] ∅ <> iterativeDPLL 3 3 [[1; 2]; [-1; -2]] ∅.
Proof. by vm_compute. Qed.

(** C6 (fails for the recursive search): [DPLL] branches on variable 1 at
    once; the failed exploration of [true] leaves [3 := true] in the map;
    explored from a snapshot taken before, the branch [false] returns a map
    without variable 3, but [DPLL] returns one with [3 := true]. *)
Theorem DPLL_branches_share_assignment :
  UnitPropagation 5 leaking_cnf ∅ = Some (leaking_cnf, true, ∅)
  /\ PureLiteralElimination leaking_cnf ∅ = (leaking_cnf, ∅)
  /\ select_variable leaking_cnf = 1
  /\ DPLL 5 4 (assign leaking_cnf 1 true) {[1 := true]}
     = Some (false, <[3 := true]> {[1 := true]})
  /\ DPLL 5 4 (assign leaking_cnf 1 false) {[1 := false]}
     = Some (true, <[4 := false]> (<[2 := true]> {[1 := false]}))
  /\ DPLL 5 5 leaking_cnf ∅
     = Some (true,
             <[4 := false]> (<[2 := true]> (<[3 := true]> {[1 := false]})))
  /\ iterativeDPLL 5 5 leaking_cnf ∅ = Some (true, {[4 := false]}).
Proof. by vm_compute. Qed.

(** * The parser *)

(** ** When [parseCNF] returns *)

Section parse_loops_return.
Variable parse_stored :
  string -> gmap string Z -> option (CNF * gmap string Z).
Variable store : FormulaStore.
Variable ok : string -> bool.
Hypothesis parse_stored_ok :
  forall storedFormula varMap,
    is_Some (parse_stored storedFormula varMap) <-> ok storedFormula = true.

Lemma parse_literal_returns litStr st :
  is_Some (parse_literal parse_stored store litStr st)
  <-> token_ok store ok litStr = true.
Proof.
  unfold parse_literal, token_ok.
  destruct (Formulas store !! Trim litStr "!") as [body|].
  - rewrite <- (parse_stored_ok body (ps_varMap st)).
    destruct (parse_stored body (ps_varMap st)) as [[subCNF vm]|].
    + split; eauto.
    + split; intros [? ?]; done.
  - destruct (assignVar (Trim litStr "!") st). split; eauto.
Qed.

Lemma parse_literals_returns literals st :
  is_Some (parse_literals parse_stored store literals st)
  <-> forallb (token_ok store ok) literals = true.
Proof.
  revert st. induction literals as [|litStr rest IH]; intros st; simpl.
  - split; eauto.
  - rewrite andb_true_iff, <- (parse_literal_returns litStr st).
    destruct (parse_literal parse_stored store litStr st) as [st'|].
    + rewrite IH. split; [eauto|tauto].
    + split; [by intros [? ?]|by intros [[? ?] _]].
Qed.

Lemma parse_clause_returns clauseStr st :
  is_Some (parse_clause parse_stored store clauseStr st)
  <-> clause_ok store ok clauseStr = true.
Proof.
  unfold parse_clause, clause_ok.
  match goal with
  | |- context [parse_literals _ _ ?literals ?st0] =>
      pose proof (parse_literals_returns literals st0) as H;
      destruct (parse_literals parse_stored store literals st0)
  end.
  - split; [intros _; apply H|intros _]; by eexists.
  - split; [by intros [? ?]|]. intros [? ?]%H. done.
Qed.

Lemma parse_clauses_returns clauses st :
  is_Some (parse_clauses parse_stored store clauses st)
  <-> forallb (clause_ok store ok) clauses = true.
Proof.
  revert st. induction clauses as [|clauseStr rest IH]; intros st; simpl.
  - split; eauto.
  - rewrite andb_true_iff, <- (parse_clause_returns clauseStr st).
    destruct (parse_clause parse_stored store clauseStr st) as [st'|].
    + rewrite IH. split; [eauto|tauto].
    + split; [by intros [? ?]|by intros [[? ?] _]].
Qed.
End parse_loops_return.

Lemma parseCNF_returns fuel input varMap store :
  is_Some (parseCNF fuel input varMap store)
  <-> refs_within store fuel input = true.
Proof.
  revert input varMap. induction fuel as [|fuel IH]; intros input varMap.
  - simpl. split; [by intros [? ?]|done].
  - simpl.
    match goal with
    | |- context [parse_clauses ?nested _ ?clauses ?st0] =>
        pose proof (parse_clauses_returns nested store
                      (refs_within store fuel)) as H;
        destruct (parse_clauses nested store clauses st0) eqn:Hparse
    end.
    + split; [intros _|intros; by eexists].
      eapply H; [|by erewrite Hparse].
      intros body vm. rewrite <- (IH body vm).
      destruct (parseCNF fuel body vm store) as [[[? ?] ?]|];
        [split; intros; by eexists|split; intros [? ?]; done].
    + split; [by intros [? ?]|]. intros Hok.
      eapply H in Hok as [? Hsome]; [by erewrite Hparse in Hsome|].
      intros body vm. rewrite <- (IH body vm).
      destruct (parseCNF fuel body vm store) as [[[? ?] ?]|];
        [split; intros; by eexists|split; intros [? ?]; done].
Qed.

(** ** Scenarios *)

(** C7 (the expansion differs): for Scenario C [parseCNF] returns three
    clauses, [-j; -y], [j] and [j; y] with [j = 1] and [y = 2], not the two
    clauses [-j; -y; j] and [j; y]: the clauses of [R] are appended to the
    formula, and the clause that referred to [R] keeps its other literal
    only.  [DPLL] answers "satisfiable" with [j = true], [y = false]. *)
Theorem parseCNF_scenario_C :
  parseCNF 2 formula_I ∅ store_R
  = Some ([[-1; -2]; [1]; [1; 2]], ∅,
          <[quoted "y" := 2]> {[quoted "j" := 1]})
  /\ DPLL 4 3 [[-1; -2]; [1]; [1; 2]] ∅
     = Some (true, <[2 := false]> {[1 := true]})
  /\ satisfies (<[2 := false]> {[1 := true]}) [[-1; -2; 1]; [1; 2]] = true.
Proof. by vm_compute. Qed.

(** C4 (two names, one id): parsing [("a" \/ "S")] with [S = ("b")]
    registers ["a"] under 1 in the outer call and ["b"] under 1 in the
    nested call, whose counter starts at 1 again. *)
Theorem parseCNF_registry_collision :
  parseCNF 2 formula_aS ∅ store_S
  = Some ([[1]; [1]], {[1 := quoted "a"]},
          <[quoted "b" := 1]> {[quoted "a" := 1]}).
Proof. by vm_compute. Qed.

(** ** Cyclic references *)

Lemma refs_within_X depth : refs_within store_X depth formula_X = false.
Proof.
  induction depth as [|depth IH]; [done|].
  change (refs_within store_X (S depth) formula_X)
    with (refs_within store_X depth formula_X && true && true).
  by rewrite IH.
Qed.

Lemma refs_within_PQ depth :
  refs_within store_PQ depth ("(" +:+ quoted "P" +:+ ")") = false
  /\ refs_within store_PQ depth ("(" +:+ quoted "Q" +:+ ")") = false.
Proof.
  induction depth as [|depth [IHP IHQ]]; [done|]. split.
  - change (refs_within store_PQ (S depth) ("(" +:+ quoted "P" +:+ ")"))
      with (refs_within store_PQ depth ("(" +:+ quoted "Q" +:+ ")")
            && true && true).
    by rewrite IHQ.
  - change (refs_within store_PQ (S depth) ("(" +:+ quoted "Q" +:+ ")"))
      with (refs_within store_PQ depth ("(" +:+ quoted "P" +:+ ")")
            && true && true).
    by rewrite IHP.
Qed.

(** *** The rewriting parser on a cyclic reference *)

Lemma string_app_assoc (a b c : string) : (a +:+ b) +:+ c = a +:+ (b +:+ c).
Proof.
  induction a as [|x a IH]; [done|].
  change (String x ((a +:+ b) +:+ c) = String x (a +:+ (b +:+ c))).
  by rewrite IH.
Qed.

Lemma string_app_length (a b : string) :
  String.length (a +:+ b) = (String.length a + String.length b)%nat.
Proof.
  induction a as [|x a IH]; [done|].
  change (S (String.length (a +:+ b))
          = S (String.length a + String.length b)). by rewrite IH.
Qed.

Lemma string_get_app (a s : string) n :
  String.get (String.length a + n) (a +:+ s) = String.get n s.
Proof. induction a as [|x a IH]; [done|exact IH]. Qed.

Lemma string_substring_app (a s : string) n m :
  String.substring (String.length a + n) m (a +:+ s) = String.substring n m s.
Proof. induction a as [|x a IH]; [done|exact IH]. Qed.

Lemma string_substring_prefix (a s : string) :
  String.substring 0 (String.length a) (a +:+ s) = a.
Proof.
  induction a as [|x a IH]; [by destruct s|].
  change (String x (String.substring 0 (String.length a) (a +:+ s))
          = String x a). by rewrite IH.
Qed.

Lemma string_substring_all (s : string) :
  String.substring 0 (String.length s) s = s.
Proof.
  induction s as [|x s IH]; [done|].
  change (String x (String.substring 0 (String.length s) s) = String x s).
  by rewrite IH.
Qed.

Lemma drop_bytes_app (a s : string) :
  Rewriting.drop_bytes (String.length a) (a +:+ s) = s.
Proof.
  unfold Rewriting.drop_bytes.
  rewrite <- (Nat.add_0_r (String.length a)) at 1.
  rewrite string_substring_app, string_app_length.
  replace (String.length a + String.length s - String.length a)%nat
    with (String.length s) by lia.
  apply string_substring_all.
Qed.

Lemma repeat_string_length (c : Ascii.ascii) k :
  String.length (repeat_string (String c "") k) = k.
Proof.
  induction k as [|k IH]; [done|].
  change (S (String.length (repeat_string (String c "") k)) = S k).
  by rewrite IH.
Qed.

Lemma repeat_string_snoc (c : Ascii.ascii) k :
  repeat_string (String c "") k +:+ String c ""
  = repeat_string (String c "") (S k).
Proof.
  induction k as [|k IH]; [done|].
  change (String c (repeat_string (String c "") k +:+ String c "")
          = String c (repeat_string (String c "") (S k))).
  by rewrite IH.
Qed.

(** [nested_X k] read after its [k + 1] opening parentheses. *)
Lemma nested_X_split k :
  nested_X k
  = repeat_string "(" (S k) +:+ (quoted "X" +:+ repeat_string ")" (S k)).
Proof.
  unfold nested_X. rewrite <- repeat_string_snoc, string_app_assoc.
  reflexivity.
Qed.

Lemma rewriting_loop_X fuel :
  forall k stack vars,
    Rewriting.loop fuel store_X
      {| Rewriting.input := nested_X k; Rewriting.i := k;
         Rewriting.stack := stack; Rewriting.vars := vars |}
    = Rewriting.OutOfFuel
    /\ Rewriting.loop fuel store_X
         {| Rewriting.input := nested_X k; Rewriting.i := S k;
            Rewriting.stack := stack; Rewriting.vars := vars |}
       = Rewriting.OutOfFuel.
Proof.
  induction fuel as [|fuel IH]; intros k stack vars; [done|]. split.
  - (* at the parenthesis that opens the innermost clause *)
    simpl.
    assert (String.get k (nested_X k) = Some "("%char) as ->.
    { unfold nested_X.
      rewrite <- (repeat_string_length "(" k) at 1.
      rewrite <- (Nat.add_0_r (String.length _)).
      by rewrite string_get_app. }
    unfold Rewriting.step. simpl. apply IH.
  - (* at the reference to X *)
    simpl.
    pose proof (repeat_string_length "(" (S k)) as Hlen.
    assert (String.get (S k) (nested_X k)
            = Some (Ascii.ascii_of_nat 34)) as ->.
    { rewrite nested_X_split. rewrite <- Hlen at 1.
      rewrite <- (Nat.add_0_r (String.length _)).
      by rewrite string_get_app. }
    unfold Rewriting.step. simpl.
    assert (Rewriting.drop_bytes (S k) (nested_X k)
            = quoted "X" +:+ repeat_string ")" (S k)) as Hdrop.
    { rewrite nested_X_split. rewrite <- Hlen at 1. apply drop_bytes_app. }
    rewrite Hdrop.
    change (Rewriting.token_length (quoted "X" +:+ repeat_string ")" (S k)))
      with 3%nat.
    replace (k + 3 - k)%nat with 3%nat by lia.
    assert (String.substring (S k) 3 (nested_X k) = quoted "X") as ->.
    { rewrite nested_X_split. rewrite <- Hlen at 1.
      rewrite <- (Nat.add_0_r (String.length _)).
      by rewrite string_substring_app. }
    rewrite lookup_singleton_eq.
    assert (Rewriting.take_bytes (S k) (nested_X k) +:+ formula_X
            +:+ Rewriting.drop_bytes (S (k + 3)) (nested_X k)
            = nested_X (S k)) as ->; [|apply IH].
    unfold nested_X at 3. f_equal; [|f_equal].
    + rewrite nested_X_split. unfold Rewriting.take_bytes.
      rewrite <- Hlen at 1. apply string_substring_prefix.
    + rewrite nested_X_split, <- string_app_assoc.
      replace (S (k + 3))
        with (String.length (repeat_string "(" (S k) +:+ quoted "X")).
      * apply drop_bytes_app.
      * rewrite string_app_length, Hlen. simpl. lia.
Qed.

Lemma rewriting_parseCNF_X fuel :
  Rewriting.parseCNF fuel formula_X ∅ store_X = Rewriting.OutOfFuel.
Proof.
  unfold Rewriting.parseCNF.
  change (remove_spaces formula_X) with (nested_X 0).
  by rewrite (proj1 (rewriting_loop_X fuel 0 [] _)).
Qed.

(** C3 fails on the code: for [X = ("X")] neither parser ever returns,
    with an error or otherwise; the recursive one nests calls without bound
    and the rewriting one substitutes without bound. *)
Lemma parseCNF_cyclic_never_returns :
  ~ (exists fuel result, parseCNF fuel formula_X ∅ store_X = Some result)
  /\ ~ (exists fuel,
          Rewriting.parseCNF fuel formula_X ∅ store_X
          <> Rewriting.OutOfFuel).
Proof.
  split.
  - intros (fuel & result & Hparse).
    assert (is_Some (parseCNF fuel formula_X ∅ store_X)) as Hsome
      by (by rewrite Hparse).
    apply parseCNF_returns in Hsome. by rewrite refs_within_X in Hsome.
  - intros (fuel & Hne). apply Hne, rewriting_parseCNF_X.
Qed.

(** ** The order of [range] over a map *)

Lemma passing_pure cnf entries :
  small_cnf cnf ->
  (forall entry, entry ∈ entries ->
                 entry ∈ map_to_list (literal_counts cnf)) ->
  Forall (pure_in cnf) (passing (literal_counts cnf) entries).
Proof.
  intros Hsmall Hsub. apply Forall_forall. intros l Hl. unfold passing in Hl.
  apply list_elem_of_fmap in Hl as ([l' count] & -> & Hin).
  apply list_elem_of_filter in Hin as [Htest Hin].
  apply Hsub, elem_of_map_to_list in Hin. by eapply pure_test.
Qed.

Lemma record_fold_perm cnf assignment ps ps' :
  int_cnf cnf -> Forall (pure_in cnf) ps -> ps ≡ₚ ps' ->
  foldl record_literal assignment ps = foldl record_literal assignment ps'.
Proof.
  intros Hint Hps Hperm.
  assert (Forall (pure_in cnf) ps') as Hps' by (by rewrite <- Hperm).
  apply map_eq. intros v.
  destruct (decide (Exists (fun l => abs l = v) ps)) as [Hex|Hnone].
  - apply Exists_exists in Hex as (l & Hl & <-).
    rewrite Forall_forall in Hps, Hps'.
    rewrite !record_fold_pure; try done.
    + by rewrite <- Hperm.
    + intros l' Hl' Habs. eapply pure_in_abs_inj; [done|by apply Hps| |done].
      by apply Hps' in Hl' as [? _].
    + intros l' Hl' Habs. eapply pure_in_abs_inj; [done|by apply Hps| |done].
      by apply Hps in Hl' as [? _].
  - apply not_Exists_Forall in Hnone; [|apply _].
    rewrite !record_fold_other; [done| |done].
    by rewrite <- Hperm.
Qed.

(** X6: Go leaves the order in which [range] visits [literalCount] open.
    Whatever the order, [PureLiteralElimination] returns the same formula
    and leaves the same map. *)
Lemma pure_loop_order cnf assignment entries :
  int_cnf cnf -> small_cnf cnf ->
  entries ≡ₚ map_to_list (literal_counts cnf) ->
  pure_loop (literal_counts cnf) entries cnf assignment
  = PureLiteralElimination cnf assignment.
Proof.
  intros Hint Hsmall Hperm. unfold PureLiteralElimination.
  rewrite !pure_loop_passing.
  set (ps := passing (literal_counts cnf) entries).
  set (ps' := passing (literal_counts cnf)
                      (map_to_list (literal_counts cnf))).
  assert (ps ≡ₚ ps') as Hps.
  { unfold ps, ps', passing. by rewrite Hperm. }
  assert (Forall (pure_in cnf) ps') as Hpure'
    by (by apply passing_pure).
  assert (Forall (pure_in cnf) ps) as Hpure by (by rewrite Hps).
  f_equal.
  - rewrite !pure_fold_filter by done. apply list_filter_iff.
    intros c. by rewrite Hps.
  - by eapply record_fold_perm.
Qed.

(** ** [copyAssignment] *)

(** The copy holds what the original holds; being a value of its own here,
    later writes to either map do not show in the other. *)
Lemma copyAssignment_eq original : copyAssignment original = original.
Proof.
  unfold copyAssignment.
  apply (map_fold_weak_ind (fun copy m => copy = m)); [done|].
  by intros key value m copy _ ->.
Qed.

(** * Further properties of the engine *)

Lemma DPLL_sound_witness :
  valid_cnf leaking_cnf
  /\ satisfies (<[4 := false]> (<[2 := true]> (<[3 := true]> {[1 := false]})))
               leaking_cnf = true.
Proof.
  split; [unfold leaking_cnf; solve_cnf|].
  apply (DPLL_sound 5 5 leaking_cnf ∅);
    [unfold leaking_cnf; solve_cnf|unfold leaking_cnf; solve_small|].
  vm_compute. reflexivity.
Defined.

(** X2: a call of [DPLL] that returns has written to the caller's map only
    at variables of the formula. *)
Theorem DPLL_frame loops depth cnf assignment verdict M v :
  valid_cnf cnf -> small_cnf cnf ->
  DPLL loops depth cnf assignment = Some (verdict, M) ->
  v ∉ variables cnf -> M !! v = assignment !! v.
Proof.
  intros Hvalid Hsmall HDPLL.
  destruct (DPLL_result _ _ _ _ _ _ Hvalid Hsmall HDPLL) as [[Hframe _] _].
  apply Hframe.
Qed.

Lemma DPLL_frame_witness :
  valid_cnf [[1; 2]; [-1; -2]]
  /\ (<[1 := true]> (<[2 := false]> {[7 := true]}) : gmap Z bool) !! 7
     = ({[7 := true]} : gmap Z bool) !! 7.
Proof.
  split; [solve_cnf|].
  apply (DPLL_frame 3 3 [[1; 2]; [-1; -2]] {[7 := true]} true);
    [solve_cnf|solve_small|vm_compute; reflexivity|].
  apply (bool_decide_eq_false_1 (7 ∈ variables [[1; 2]; [-1; -2]])).
  vm_compute. reflexivity.
Defined.

(** X3: a verdict "unsatisfiable" of [DPLL] is given only to formulas no map
    satisfies, whatever the initial map and the bounds. *)
Theorem DPLL_refutes loops depth cnf assignment M M' :
  valid_cnf cnf -> small_cnf cnf ->
  DPLL loops depth cnf assignment = Some (false, M) ->
  satisfies M' cnf = false.
Proof.
  intros Hvalid Hsmall HDPLL.
  destruct (DPLL_result _ _ _ _ _ _ Hvalid Hsmall HDPLL) as [_ Hunsat].
  by apply Hunsat.
Qed.

Lemma DPLL_refutes_witness :
  valid_cnf [[1; 2]; [-1; 2]; [1; -2]; [-1; -2]]
  /\ satisfies (<[1 := true]> {[2 := true]})
               [[1; 2]; [-1; 2]; [1; -2]; [-1; -2]] = false.
Proof.
  split; [solve_cnf|].
  eapply (DPLL_refutes 5 3 [[1; 2]; [-1; 2]; [1; -2]; [-1; -2]] ∅);
    [solve_cnf|solve_small|vm_compute; reflexivity].
Defined.

(** X4: [UnitPropagation] keeps the models of the formula: a map that
    satisfies the input satisfies the returned formula; a map that satisfies
    the returned formula and holds the values the call recorded satisfies
    the input; and a reported conflict means the input has no model. *)
Theorem UnitPropagation_models fuel cnf assignment cnf' ok assignment' :
  valid_cnf cnf ->
  UnitPropagation fuel cnf assignment = Some (cnf', ok, assignment') ->
  (forall M, satisfies M cnf = true -> satisfies M cnf' = true)
  /\ (forall M, (forall v, v ∉ variables cnf' -> M !! v = assignment' !! v) ->
                satisfies M cnf' = true -> satisfies M cnf = true)
  /\ (ok = false -> forall M, satisfies M cnf = false).
Proof.
  intros Hvalid. unfold UnitPropagation.
  destruct (unit_loop fuel cnf assignment) as [[cnf1 A1]|] eqn:Hloop; [|done].
  intros [= <- <- <-].
  apply unit_loop_reduces in Hloop as (_ & (_ & _ & Hsound) & Hcomplete);
    [|done].
  split; [done|]. split; [done|].
  intros Hconflict M. destruct (satisfies M cnf) eqn:Hsat; [|done].
  apply Hcomplete in Hsat. by rewrite empty_clause_unsat in Hsat.
Qed.

Lemma UnitPropagation_models_witness :
  valid_cnf [[1]; [-1; 2]; [-2; 3; 4]]
  /\ (forall M, satisfies M [[1]; [-1; 2]; [-2; 3; 4]] = true ->
                satisfies M [[3; 4]] = true)
  /\ (forall M, (forall v, v ∉ variables [[3; 4]] ->
                           M !! v = (<[2 := true]> {[1 := true]}
                                     : gmap Z bool) !! v) ->
                satisfies M [[3; 4]] = true ->
                satisfies M [[1]; [-1; 2]; [-2; 3; 4]] = true)
  /\ (true = false ->
      forall M, satisfies M [[1]; [-1; 2]; [-2; 3; 4]] = false).
Proof.
  split; [solve_cnf|].
  apply (UnitPropagation_models 4 [[1]; [-1; 2]; [-2; 3; 4]] ∅);
    [solve_cnf|vm_compute; reflexivity].
Defined.

(** X5: [PureLiteralElimination] only drops clauses, and keeps the models:
    the returned formula is a sub-list of the input; a map that satisfies the
    input satisfies it; and a map that satisfies it and holds the values the
    call recorded satisfies the input. *)
Theorem PureLiteralElimination_models cnf assignment cnf' assignment' :
  int_cnf cnf -> small_cnf cnf ->
  PureLiteralElimination cnf assignment = (cnf', assignment') ->
  cnf' `sublist_of` cnf
  /\ (forall M, satisfies M cnf = true -> satisfies M cnf' = true)
  /\ (forall M, (forall v, v ∉ variables cnf' -> M !! v = assignment' !! v) ->
                satisfies M cnf' = true -> satisfies M cnf = true).
Proof.
  intros Hint Hsmall Heq. split.
  - destruct (PureLiteralElimination_closed cnf assignment Hint Hsmall)
      as (ps & _ & Hclosed).
    rewrite Hclosed in Heq. injection Heq as <- _. apply sublist_filter.
  - apply PureLiteralElimination_reduces in Heq
      as (_ & (_ & _ & Hsound) & Hcomplete); done.
Qed.

Lemma PureLiteralElimination_models_witness :
  int_cnf [[1; 2]; [-2; 3]; [2; -3]]
  /\ [[-2; 3]; [2; -3]] `sublist_of` [[1; 2]; [-2; 3]; [2; -3]]
  /\ (forall M, satisfies M [[1; 2]; [-2; 3]; [2; -3]] = true ->
                satisfies M [[-2; 3]; [2; -3]] = true)
  /\ (forall M, (forall v, v ∉ variables [[-2; 3]; [2; -3]] ->
                           M !! v = ({[1 := true]} : gmap Z bool) !! v) ->
                satisfies M [[-2; 3]; [2; -3]] = true ->
                satisfies M [[1; 2]; [-2; 3]; [2; -3]] = true).
Proof.
  split; [solve_cnf|].
  apply (PureLiteralElimination_models [[1; 2]; [-2; 3]; [2; -3]] ∅);
    [solve_cnf|solve_small|vm_compute; reflexivity].
Defined.

Lemma pure_loop_order_witness :
  int_cnf [[1; 2]; [-2; 3]; [2; -3]; [4; -1; 5]]
  /\ pure_loop (literal_counts [[1; 2]; [-2; 3]; [2; -3]; [4; -1; 5]])
       (reverse (map_to_list
                   (literal_counts [[1; 2]; [-2; 3]; [2; -3]; [4; -1; 5]])))
       [[1; 2]; [-2; 3]; [2; -3]; [4; -1; 5]] ∅
     = PureLiteralElimination [[1; 2]; [-2; 3]; [2; -3]; [4; -1; 5]] ∅.
Proof.
  split; [solve_cnf|].
  apply (pure_loop_order [[1; 2]; [-2; 3]; [2; -3]; [4; -1; 5]] ∅);
    [solve_cnf|solve_small|apply reverse_Permutation].
Defined.

(** X7: for a variable of the data model and a map that gives it the value
    [value], [assign] keeps the truth of the formula under the map: the map
    satisfies the returned formula exactly when it satisfies the input. *)
Theorem assign_satisfies M cnf variable value :
  int_cnf cnf -> 0 < variable <= int_max ->
  M !! variable = Some value ->
  satisfies M (assign cnf variable value) = satisfies M cnf.
Proof.
  intros Hint Hv HM.
  destruct (satisfies M cnf) eqn:Hsat.
  - by apply assign_complete.
  - destruct (satisfies M (assign cnf variable value)) eqn:Hsat'; [|done].
    apply (assign_sound M cnf variable value Hv HM) in Hsat'. congruence.
Qed.

Lemma assign_satisfies_witness :
  int_cnf [[1; -2]; [2; 3]; [-3; -1]]
  /\ satisfies (<[3 := false]> {[2 := true]})
               (assign [[1; -2]; [2; 3]; [-3; -1]] 2 true)
     = satisfies (<[3 := false]> {[2 := true]}) [[1; -2]; [2; 3]; [-3; -1]].
Proof.
  split; [solve_cnf|].
  apply (assign_satisfies _ [[1; -2]; [2; 3]; [-3; -1]] 2 true);
    [solve_cnf|unfold int_max; lia|vm_compute; reflexivity].
Defined.

(** X8: [abs] on the values of Go's [int]: the mathematical absolute value,
    except at the minimum, which it returns unchanged (and negative). *)
Theorem abs_int_min x :
  is_int x ->
  (x <> int_min -> abs x = Z.abs x /\ 0 <= abs x <= int_max)
  /\ (x = int_min -> abs x = int_min).
Proof.
  intros Hx. split.
  - intros Hne. unfold abs. destruct (Z.ltb_spec x 0).
    + rewrite neg_opp by (unfold is_int in Hx; lia).
      unfold is_int, int_min, int_max in *. lia.
    + unfold is_int, int_min, int_max in *. lia.
  - intros ->. reflexivity.
Qed.

Lemma abs_int_min_witness :
  is_int int_min
  /\ (int_min <> int_min ->
      abs int_min = Z.abs int_min /\ 0 <= abs int_min <= int_max)
  /\ (int_min = int_min -> abs int_min = int_min).
Proof.
  split; [unfold is_int, int_min, int_max; lia|].
  apply (abs_int_min int_min). unfold is_int, int_min, int_max; lia.
Defined.

Lemma assign_keeps_empty cnf variable value :
  [] ∈ cnf -> [] ∈ assign cnf variable value.
Proof. intros H. apply assign_elem. exists []. by split. Qed.

Lemma unit_loop_keeps_empty fuel cnf assignment cnf' assignment' :
  [] ∈ cnf -> unit_loop fuel cnf assignment = Some (cnf', assignment') ->
  [] ∈ cnf'.
Proof.
  revert cnf assignment. induction fuel as [|fuel IH]; intros cnf A; [done|].
  simpl. destruct (find_unit cnf) as [unit|].
  - intros Hin. apply IH. by apply assign_keeps_empty.
  - by intros Hin [= <- _].
Qed.

(** X9: a formula that holds an empty clause is refused without branching:
    [DPLL] returns "unsatisfiable" at nesting 1, whatever else the formula
    holds (an empty clause is never dropped by unit propagation). *)
Theorem DPLL_empty_clause loops depth cnf assignment :
  int_cnf cnf -> [] ∈ cnf -> (length cnf < loops)%nat ->
  exists M, DPLL loops (S depth) cnf assignment = Some (false, M).
Proof.
  intros Hint Hempty Hloops. simpl. unfold UnitPropagation.
  destruct (unit_loop_returns loops cnf assignment Hint Hloops)
    as (cnf1 & A1 & Hloop & _).
  rewrite Hloop.
  apply unit_loop_keeps_empty in Hloop; [|done].
  assert (no_empty_clause cnf1 = false) as ->; [|simpl; eauto].
  destruct (no_empty_clause cnf1) eqn:Hok; [|done].
  apply no_empty_clause_spec in Hok. rewrite Forall_forall in Hok.
  by destruct (Hok [] Hloop).
Qed.

Lemma DPLL_empty_clause_witness :
  int_cnf [[1]; []; [-1; 2]]
  /\ exists M, DPLL 4 1 [[1]; []; [-1; 2]] ∅ = Some (false, M).
Proof.
  split; [solve_cnf|].
  apply (DPLL_empty_clause 4 0 [[1]; []; [-1; 2]] ∅);
    [solve_cnf|apply elem_of_cons; right; apply list_elem_of_here|simpl; lia].
Defined.

(** ** [applyPreAssignments] *)

(** [assign] on one clause, in closed form. *)
Lemma assign_clause_closed variable value clause :
  assign_clause variable value clause
  = if decide (lit_of variable value ∈ clause) then None
    else Some (filter (fun l => l <> variable /\ l <> neg variable) clause).
Proof.
  unfold Clause in *. induction clause as [|l rest IH].
  - case_decide as Hin; [by apply elem_of_nil in Hin|done].
  - cbn [assign_clause]. rewrite IH. clear IH.
    destruct (_ || _) eqn:Htest.
    + assert (l = lit_of variable value) as ->.
      { unfold lit_of. destruct value; simpl in Htest.
        - rewrite andb_true_r, andb_false_r, orb_false_r in Htest. lia.
        - rewrite andb_true_r, andb_false_r in Htest. simpl in Htest. lia. }
      case_decide as Hin; [done|]. destruct Hin. apply list_elem_of_here.
    + assert (l <> lit_of variable value) as Hne.
      { unfold lit_of. destruct value; simpl in Htest.
        - rewrite andb_true_r, andb_false_r, orb_false_r in Htest. lia.
        - rewrite andb_true_r, andb_false_r in Htest. simpl in Htest. lia. }
      rewrite (decide_ext (lit_of variable value ∈ l :: rest)
                          (lit_of variable value ∈ rest))
        by (rewrite elem_of_cons; split; [intros [?|?]; [congruence|done]|auto]).
      repeat case_decide; try done.
      destruct (negb (l =? variable) && negb (l =? neg variable)) eqn:Hkeep.
      * apply andb_true_iff in Hkeep as [H1 H2].
        apply negb_true_iff, Z.eqb_neq in H1, H2.
        by rewrite filter_cons_True.
      * rewrite filter_cons_False; [done|].
        apply andb_false_iff in Hkeep as [H1|H1];
          apply negb_false_iff, Z.eqb_eq in H1; tauto.
Qed.

Lemma lit_of_other v1 b1 v2 :
  0 < v1 <= int_max -> 0 < v2 <= int_max -> v1 <> v2 ->
  lit_of v1 b1 <> v2 /\ lit_of v1 b1 <> neg v2.
Proof.
  intros H1 H2 Hne. unfold lit_of.
  rewrite (neg_opp v2) by (unfold int_min, int_max in *; lia).
  destruct b1; [lia|].
  rewrite (neg_opp v1) by (unfold int_min, int_max in *; lia). lia.
Qed.

(** On one clause, fixing two different variables can be done in either
    order. *)
Lemma assign_clause_comm v1 b1 v2 b2 clause :
  0 < v1 <= int_max -> 0 < v2 <= int_max -> v1 <> v2 ->
  assign_clause v1 b1 clause ≫= assign_clause v2 b2
  = assign_clause v2 b2 clause ≫= assign_clause v1 b1.
Proof.
  unfold Clause in *. intros H1 H2 Hne.
  destruct (lit_of_other v1 b1 v2 H1 H2 Hne) as [Ha Hb].
  destruct (lit_of_other v2 b2 v1 H2 H1 (not_eq_sym Hne)) as [Hc Hd].
  rewrite (assign_clause_closed v1 b1 clause),
    (assign_clause_closed v2 b2 clause).
  set (P1 := fun l : Z => l <> v1 /\ l <> neg v1).
  set (P2 := fun l : Z => l <> v2 /\ l <> neg v2).
  assert (forall X : list Z, lit_of v2 b2 ∈ filter P1 X <-> lit_of v2 b2 ∈ X)
    as Hf1.
  { intros X. rewrite list_elem_of_filter. unfold P1. tauto. }
  assert (forall X : list Z, lit_of v1 b1 ∈ filter P2 X <-> lit_of v1 b1 ∈ X)
    as Hf2.
  { intros X. rewrite list_elem_of_filter. unfold P2. tauto. }
  repeat case_decide; simpl; rewrite ?assign_clause_closed;
    fold P1 P2; repeat case_decide; try done;
    try (exfalso; rewrite ?Hf1, ?Hf2 in *; tauto).
  unfold Clause in *. f_equal. rewrite !list_filter_filter. apply list_filter_iff.
  intros x. tauto.
Qed.

Lemma assign_comm cnf v1 b1 v2 b2 :
  0 < v1 <= int_max -> 0 < v2 <= int_max -> v1 <> v2 ->
  assign (assign cnf v1 b1) v2 b2 = assign (assign cnf v2 b2) v1 b1.
Proof.
  intros H1 H2 Hne. induction cnf as [|c rest IH]; [done|].
  pose proof (assign_clause_comm v1 b1 v2 b2 c H1 H2 Hne) as Hc.
  simpl.
  destruct (assign_clause v1 b1 c) as [c1|],
    (assign_clause v2 b2 c) as [c2|]; simpl in *.
  - rewrite Hc. destruct (assign_clause v1 b1 c2); by rewrite IH.
  - rewrite Hc. done.
  - rewrite <- Hc. done.
  - done.
Qed.

Lemma apply_entries_perm es es' :
  es ≡ₚ es' ->
  Forall (fun e : Z * bool => 0 < e.1 <= int_max) es -> NoDup es.*1 ->
  forall cnf, apply_entries es cnf = apply_entries es' cnf.
Proof.
  unfold apply_entries.
  induction 1 as [|e es es' Hperm IH|e1 e2 es|es1 es2 es3 H12 IH12 H23 IH23];
    intros Hpos Hnodup cnf; simpl.
  - done.
  - inversion Hpos; subst. apply NoDup_cons in Hnodup as [_ ?]. by apply IH.
  - inversion Hpos as [|? ? Hp2 Hpos']; subst.
    inversion Hpos' as [|? ? Hp1 _]; subst.
    apply NoDup_cons in Hnodup as [Hne _].
    rewrite assign_comm; [done|done|done|].
    intros Heq. apply Hne. rewrite Heq. apply list_elem_of_here.
  - rewrite IH12 by done. apply IH23.
    + by rewrite <- H12.
    + by rewrite <- H12.
Qed.

(** X10: [applyPreAssignments] ranges over a Go map, in an order the
    language leaves open.  When every key is a variable id of the data model
    the order does not matter: over any permutation of the entries the loop
    returns the same formula. *)
Theorem applyPreAssignments_order cnf (assignment : gmap Z bool) entries :
  map_Forall (fun v _ => 0 < v <= int_max) assignment ->
  entries ≡ₚ map_to_list assignment ->
  apply_entries entries cnf = applyPreAssignments cnf assignment.
Proof.
  intros Hkeys Hperm. unfold applyPreAssignments.
  symmetry. apply apply_entries_perm.
  - by symmetry.
  - apply Forall_forall. intros [v b] Hin%elem_of_map_to_list.
    by apply (Hkeys v b).
  - apply NoDup_fst_map_to_list.
Qed.

Lemma applyPreAssignments_order_witness :
  apply_entries (reverse (map_to_list (<[1 := true]> {[3 := false]})))
                [[1; -3]; [2; 3]; [-1; 2; 3]]
  = applyPreAssignments [[1; -3]; [2; 3]; [-1; 2; 3]]
                        (<[1 := true]> {[3 := false]}).
Proof.
  apply (applyPreAssignments_order [[1; -3]; [2; 3]; [-1; 2; 3]]
           (<[1 := true]> {[3 := false]})).
  - apply (bool_decide_unpack
             (map_Forall (fun v (_ : bool) => 0 < v <= int_max)
                         (<[1 := true]> {[3 := false]}))).
    vm_compute. exact I.
  - apply reverse_Permutation.
Defined.

Lemma apply_entries_int es cnf :
  int_cnf cnf -> int_cnf (apply_entries es cnf).
Proof.
  unfold apply_entries. revert cnf.
  induction es as [|e es IH]; intros cnf Hint; simpl; [done|].
  apply IH. by apply assign_Forall.
Qed.

Lemma apply_entries_satisfies (M : gmap Z bool) es cnf :
  int_cnf cnf ->
  Forall (fun e : Z * bool => 0 < e.1 <= int_max /\ M !! e.1 = Some e.2) es ->
  satisfies M (apply_entries es cnf) = satisfies M cnf.
Proof.
  unfold apply_entries. revert cnf.
  induction es as [|[v b] es IH]; intros cnf Hint Hes; simpl; [done|].
  inversion Hes as [|? ? [Hv HM] Hes']; subst. simpl in *.
  rewrite IH by (try done; by apply assign_Forall).
  destruct (satisfies M cnf) eqn:Hsat.
  - by apply assign_complete.
  - destruct (satisfies M (assign cnf v b)) eqn:Hsat'; [|done].
    apply (assign_sound M cnf v b Hv HM) in Hsat'. congruence.
Qed.

(** X11: pre-assignments keep truth under every map that extends them: when
    the keys of [assignment] are variable ids of the data model and [M] holds
    every entry of [assignment], [M] satisfies the formula
    [applyPreAssignments] returns exactly when it satisfies the input. *)
Theorem applyPreAssignments_satisfies (M assignment : gmap Z bool) cnf :
  int_cnf cnf ->
  map_Forall (fun v _ => 0 < v <= int_max) assignment ->
  assignment ⊆ M ->
  satisfies M (applyPreAssignments cnf assignment) = satisfies M cnf.
Proof.
  intros Hint Hkeys Hsub. unfold applyPreAssignments.
  apply apply_entries_satisfies; [done|].
  apply Forall_forall. intros [v b] Hin%elem_of_map_to_list. split.
  - by apply (Hkeys v b).
  - simpl. by eapply lookup_weaken.
Qed.

Lemma applyPreAssignments_satisfies_witness :
  int_cnf [[1; -3]; [2; 3]; [-1; 2; 3]]
  /\ satisfies (<[2 := true]> (<[1 := true]> {[3 := false]}))
       (applyPreAssignments [[1; -3]; [2; 3]; [-1; 2; 3]]
                            (<[1 := true]> {[3 := false]}))
     = satisfies (<[2 := true]> (<[1 := true]> {[3 := false]}))
                 [[1; -3]; [2; 3]; [-1; 2; 3]].
Proof.
  split; [solve_cnf|].
  apply (applyPreAssignments_satisfies
           (<[2 := true]> (<[1 := true]> {[3 := false]}))
           (<[1 := true]> {[3 := false]})).
  - solve_cnf.
  - apply (bool_decide_unpack
             (map_Forall (fun v (_ : bool) => 0 < v <= int_max)
                         (<[1 := true]> {[3 := false]}))).
    vm_compute. exact I.
  - apply (bool_decide_unpack
             ((<[1 := true]> {[3 := false]} : gmap Z bool)
              ⊆ <[2 := true]> (<[1 := true]> {[3 := false]}))).
    vm_compute. exact I.
Defined.

Lemma apply_entries_variables es cnf :
  int_cnf cnf ->
  variables (apply_entries es cnf) ⊆ variables cnf ∖ list_to_set es.*1.
Proof.
  unfold apply_entries. revert cnf.
  induction es as [|[v b] es IH]; intros cnf Hint; simpl.
  - set_solver.
  - pose proof (IH (assign cnf v b) (assign_Forall _ _ _ _ Hint)) as H.
    pose proof (variables_assign cnf v b Hint). set_solver.
Qed.

(** X12: [applyPreAssignments] leaves no occurrence of a pre-assigned
    variable, and adds no variable. *)
Theorem applyPreAssignments_eliminates cnf (assignment : gmap Z bool) :
  int_cnf cnf ->
  variables (applyPreAssignments cnf assignment)
  ⊆ variables cnf ∖ dom assignment.
Proof.
  intros Hint. unfold applyPreAssignments.
  pose proof (apply_entries_variables (map_to_list assignment) cnf Hint) as H.
  intros v Hv. apply H in Hv. apply elem_of_difference in Hv as [Hv Hnot].
  apply elem_of_difference. split; [done|].
  intros Hdom. apply Hnot. apply elem_of_list_to_set.
  apply elem_of_dom in Hdom as [b Hb].
  apply list_elem_of_fmap. exists (v, b). split; [done|].
  by apply elem_of_map_to_list.
Qed.

Lemma applyPreAssignments_eliminates_witness :
  int_cnf [[1; -3]; [2; 3]; [-1; 2; 3]]
  /\ variables (applyPreAssignments [[1; -3]; [2; 3]; [-1; 2; 3]]
                                    (<[1 := true]> {[3 := false]}))
     ⊆ variables [[1; -3]; [2; 3]; [-1; 2; 3]]
       ∖ dom (<[1 := true]> {[3 := false]} : gmap Z bool).
Proof.
  split; [solve_cnf|].
  apply (applyPreAssignments_eliminates [[1; -3]; [2; 3]; [-1; 2; 3]]).
  solve_cnf.
Defined.

(** ** [iterativeDPLL] *)

Lemma reduces_satisfiable cnf assignment cnf' assignment' :
  reduces cnf assignment cnf' assignment' ->
  satisfiable cnf' -> satisfiable cnf.
Proof.
  intros (_ & _ & Hsound) [M' HM'].
  set (inside := fun kv : Z * bool => kv.1 ∈ variables cnf').
  set (outside := fun kv : Z * bool => kv.1 ∉ variables cnf').
  exists (filter inside M' ∪ filter outside assignment'). apply Hsound.
  - intros v Hv. rewrite lookup_union_r.
    + destruct (assignment' !! v) as [b|] eqn:Hb.
      * by apply map_lookup_filter_Some_2.
      * apply map_lookup_filter_None_2. left. done.
    + apply map_lookup_filter_None_2. right. intros b _. unfold inside.
      simpl. tauto.
  - eapply satisfies_agree; [|exact HM']. intros v b Hv Hb.
    apply lookup_union_Some_l. by apply map_lookup_filter_Some_2.
Qed.

Lemma satisfiable_nil : satisfiable [].
Proof. by exists ∅. Qed.

(** What one turn of the stack search learns about the formula it pops. *)
Lemma simplify_satisfiable loops cnf assignment cnf1 ok assignment1 :
  valid_cnf cnf -> small_cnf cnf ->
  UnitPropagation loops cnf assignment = Some (cnf1, ok, assignment1) ->
  (ok = false -> ~ satisfiable cnf)
  /\ (ok = true ->
      forall cnf2 assignment2,
        PureLiteralElimination cnf1 assignment1 = (cnf2, assignment2) ->
        valid_cnf cnf2 /\ small_cnf cnf2
        /\ (length cnf2 <= length cnf)%nat
        /\ variables cnf2 ⊆ variables cnf
        /\ no_empty_clause cnf2 = true
        /\ (satisfiable cnf <-> satisfiable cnf2)).
Proof.
  intros Hvalid Hsmall. unfold UnitPropagation.
  destruct (unit_loop loops cnf assignment) as [[c1 A1]|] eqn:Hunit; [|done].
  intros [= <- <- <-].
  pose proof (unit_loop_smaller _ _ _ _ _ Hunit) as Hsize1.
  assert ((length c1 <= length cnf)%nat) as Hlen1.
  { clear -Hunit. revert cnf assignment Hunit.
    induction loops as [|loops IH]; intros cnf A; [done|]. simpl.
    destruct (find_unit cnf) as [unit|].
    - intros H%IH. pose proof (assign_length cnf (abs unit) (0 <? unit)). lia.
    - by intros [= <- _]. }
  apply unit_loop_reduces in Hunit as (Hvalid1 & Hred1 & Hcomplete1);
    [|done].
  split.
  - intros Hconflict [M HM]. apply Hcomplete1 in HM.
    by rewrite empty_clause_unsat in HM.
  - intros Hok cnf2 A2 Hpure.
    assert (small_cnf c1) as Hsmall1 by (unfold small_cnf in *; lia).
    pose proof (PureLiteralElimination_smaller _ _ _ _
                  (valid_cnf_int _ Hvalid1) Hsmall1 Hpure) as [Hlen2 Hsize2].
    apply PureLiteralElimination_reduces in Hpure
      as (Hsub & Hred2 & Hcomplete2); [|by apply valid_cnf_int|done].
    split; [by eapply sub_Forall|].
    split; [unfold small_cnf in *; lia|].
    split; [lia|].
    split; [destruct Hred1 as [? _], Hred2 as [? _]; set_solver|].
    split; [by eapply sub_no_empty|].
    split.
    + intros [M HM]. exists M. auto.
    + intros Hsat. eapply reduces_satisfiable; [exact Hred1|].
      by eapply reduces_satisfiable.
Qed.

Lemma branch_satisfiable cnf :
  valid_cnf cnf -> no_empty_clause cnf = true -> cnf <> [] ->
  select_variable cnf ∈ variables cnf
  /\ (satisfiable cnf <->
      satisfiable (assign cnf (select_variable cnf) true)
      \/ satisfiable (assign cnf (select_variable cnf) false)).
Proof.
  intros Hvalid Hok Hne.
  destruct (select_variable_elem cnf Hok Hne) as (c & l & Hc & Hl & Hsel).
  assert (select_variable cnf ∈ variables cnf) as Hvar.
  { apply elem_of_variables. exists c, l. by rewrite Hsel. }
  assert (0 < select_variable cnf <= int_max) as Hpos.
  { rewrite Hsel. eapply abs_valid, valid_cnf_elem; eauto. }
  pose proof (valid_cnf_int _ Hvalid) as Hint.
  split; [done|]. split.
  - intros [M HM].
    destruct (branch_complete M cnf _ Hint Hpos HM) as [[M' ?]|[M' ?]];
      [left|right]; by exists M'.
  - intros [Hsat|Hsat];
      (eapply reduces_satisfiable; [|exact Hsat]);
      apply (reduces_assign cnf ∅ ∅); auto.
Qed.

Lemma weight_pos cnf : (1 <= weight cnf)%nat.
Proof.
  unfold weight. pose proof (Nat.pow_le_mono_r 2 1 (S (size (variables cnf)))).
  simpl in *. lia.
Qed.

Lemma weight_mono cnf cnf' :
  variables cnf' ⊆ variables cnf -> (weight cnf' <= weight cnf)%nat.
Proof.
  intros Hsub%subseteq_size. unfold weight.
  pose proof (Nat.pow_le_mono_r 2 (S (size (variables cnf')))
                (S (size (variables cnf)))). lia.
Qed.

Lemma weight_branch cnf variable value :
  int_cnf cnf -> variable ∈ variables cnf ->
  (2 * weight (assign cnf variable value) + 1 <= weight cnf)%nat.
Proof.
  intros Hint Hvar.
  pose proof (variables_assign_size cnf variable value Hint Hvar) as Hlt.
  unfold weight.
  pose proof (Nat.pow_le_mono_r 2
                (S (S (size (variables (assign cnf variable value)))))
                (S (size (variables cnf)))) as Hpow.
  rewrite (Nat.pow_succ_r' 2 (S _)) in Hpow.
  pose proof (weight_pos (assign cnf variable value)) as Hw.
  unfold weight in Hw. lia.
Qed.

Lemma iterative_loop_verdict loops fuel stack assignment verdict M :
  stack_ok loops stack ->
  iterative_loop loops fuel stack assignment = Some (verdict, M) ->
  (verdict = true <->
   Exists (fun st : CNF * gmap Z bool => satisfiable st.1) stack)
  /\ (verdict = false -> M = assignment).
Proof.
  revert stack. induction fuel as [|fuel IH]; intros stack Hstack; [done|].
  simpl. destruct stack as [|[cnf A] stack'].
  { intros [= <- <-]. split; [|done]. split; [done|].
    by intros ?%Exists_nil. }
  apply Forall_cons in Hstack as [(Hvalid & Hsmall & Hloops) Hstack'].
  simpl in *.
  destruct (UnitPropagation loops cnf A) as [[[cnf1 ok] A1]|] eqn:HUP;
    [|done].
  destruct (simplify_satisfiable _ _ _ _ _ _ Hvalid Hsmall HUP)
    as [Hconflict Hclean].
  destruct ok; simpl.
  2:{ intros Hloop. destruct (IH _ Hstack' Hloop) as [Hiff Hmap].
      split; [|done]. rewrite Hiff, Exists_cons. simpl.
      specialize (Hconflict eq_refl). tauto. }
  destruct (PureLiteralElimination cnf1 A1) as [cnf2 A2] eqn:Hpure.
  destruct (Hclean eq_refl cnf2 A2 eq_refl)
    as (Hvalid2 & Hsmall2 & Hlen2 & Hvars2 & Hok2 & Hsat2).
  destruct (length cnf2 =? 0)%nat eqn:Hlen.
  { intros [= <- <-]. apply length_zero_nil in Hlen as ->.
    split; [|done]. split; [|done]. intros _. apply Exists_cons. left.
    simpl. apply Hsat2, satisfiable_nil. }
  assert (cnf2 <> []) as Hne by (intros ->; discriminate).
  destruct (branch_satisfiable cnf2 Hvalid2 Hok2 Hne) as [Hvar Hbranch].
  intros Hloop. apply IH in Hloop as [Hiff Hmap].
  - split; [|done]. rewrite Hiff, !Exists_cons. simpl. tauto.
  - assert (forall value,
               valid_cnf (assign cnf2 (select_variable cnf2) value)
               /\ small_cnf (assign cnf2 (select_variable cnf2) value)
               /\ (length (assign cnf2 (select_variable cnf2) value)
                   < loops)%nat) as Hchild.
    { intros value. split; [by apply assign_Forall|]. split.
      - pose proof (assign_size cnf2 (select_variable cnf2) value).
        unfold small_cnf in *. lia.
      - pose proof (assign_length cnf2 (select_variable cnf2) value). lia. }
    apply Forall_cons; split; [apply Hchild|].
    apply Forall_cons; split; [apply Hchild|done].
Qed.

Lemma iterative_loop_returns loops fuel stack assignment :
  stack_ok loops stack -> (stack_weight stack < fuel)%nat ->
  exists verdict M,
    iterative_loop loops fuel stack assignment = Some (verdict, M).
Proof.
  revert stack. induction fuel as [|fuel IH]; intros stack Hstack Hfuel;
    [lia|].
  simpl. destruct stack as [|[cnf A] stack']; [eauto|].
  apply Forall_cons in Hstack as [(Hvalid & Hsmall & Hloops) Hstack'].
  simpl in *. pose proof (weight_pos cnf) as Hw.
  destruct (UnitPropagation_postconditions loops cnf A
              (valid_cnf_int _ Hvalid) Hloops)
    as (cnf1 & ok & A1 & HUP & _).
  rewrite HUP.
  destruct (simplify_satisfiable _ _ _ _ _ _ Hvalid Hsmall HUP)
    as [_ Hclean].
  destruct ok; simpl; [|apply IH; [done|lia]].
  destruct (PureLiteralElimination cnf1 A1) as [cnf2 A2] eqn:Hpure.
  destruct (Hclean eq_refl cnf2 A2 eq_refl)
    as (Hvalid2 & Hsmall2 & Hlen2 & Hvars2 & Hok2 & _).
  destruct (length cnf2 =? 0)%nat eqn:Hlen; [eauto|].
  assert (cnf2 <> []) as Hne by (intros ->; discriminate).
  destruct (branch_satisfiable cnf2 Hvalid2 Hok2 Hne) as [Hvar _].
  pose proof (valid_cnf_int _ Hvalid2) as Hint2.
  apply IH.
  - assert (forall value,
               valid_cnf (assign cnf2 (select_variable cnf2) value)
               /\ small_cnf (assign cnf2 (select_variable cnf2) value)
               /\ (length (assign cnf2 (select_variable cnf2) value)
                   < loops)%nat) as Hchild.
    { intros value. split; [by apply assign_Forall|]. split.
      - pose proof (assign_size cnf2 (select_variable cnf2) value).
        unfold small_cnf in *. lia.
      - pose proof (assign_length cnf2 (select_variable cnf2) value). lia. }
    apply Forall_cons; split; [apply Hchild|].
    apply Forall_cons; split; [apply Hchild|done].
  - simpl.
    pose proof (weight_branch cnf2 _ true Hint2 Hvar).
    pose proof (weight_branch cnf2 _ false Hint2 Hvar).
    pose proof (weight_mono cnf cnf2 Hvars2).
    lia.
Qed.

Lemma iterativeDPLL_satisfiable loops fuel cnf assignment verdict M :
  valid_cnf cnf -> small_cnf cnf -> (length cnf < loops)%nat ->
  iterativeDPLL loops fuel cnf assignment = Some (verdict, M) ->
  (verdict = true <-> satisfiable cnf) /\ (verdict = false -> M = assignment).
Proof.
  intros Hvalid Hsmall Hloops Hrun. unfold iterativeDPLL in Hrun.
  apply iterative_loop_verdict in Hrun as [Hiff Hmap].
  - split; [|done]. rewrite Hiff, Exists_cons, Exists_nil. simpl. tauto.
  - apply Forall_cons. split; [done|constructor].
Qed.

(** X13: the stack search returns on every formula of the data model, after
    popping fewer than [2 ^ (n + 1)] states for [n] variables; its verdict is
    the verdict of the truth table; and with the verdict "unsatisfiable" it
    returns the caller's map as the caller gave it. *)
Theorem iterativeDPLL_truth_table cnf assignment :
  valid_cnf cnf -> small_cnf cnf ->
  exists M,
    iterativeDPLL (S (length cnf)) (2 ^ S (size (variables cnf))) cnf
                  assignment
    = Some (brute_force cnf, M)
    /\ (brute_force cnf = false -> M = assignment).
Proof.
  intros Hvalid Hsmall.
  destruct (iterative_loop_returns (S (length cnf))
              (2 ^ S (size (variables cnf)))
              [(cnf, copyAssignment assignment)] assignment)
    as (verdict & M & Hrun).
  - apply Forall_cons. split; [|constructor]. simpl. repeat split; [done..|lia].
  - change (weight cnf + 0 < 2 ^ S (size (variables cnf)))%nat.
    pose proof (weight_pos cnf). unfold weight in *. lia.
  - exists M. fold (iterativeDPLL (S (length cnf))
                      (2 ^ S (size (variables cnf))) cnf assignment) in Hrun.
    destruct (iterativeDPLL_satisfiable _ _ _ _ _ _ Hvalid Hsmall
                (Nat.lt_succ_diag_r _) Hrun) as [Hiff Hmap].
    assert (verdict = brute_force cnf) as <-; [|by rewrite Hrun].
    destruct verdict.
    + symmetry. apply brute_force_spec, Hiff. done.
    + destruct (brute_force cnf) eqn:Hbf; [|done].
      apply brute_force_spec, Hiff in Hbf. done.
Qed.

Lemma iterativeDPLL_truth_table_witness :
  valid_cnf [[1; 2]; [-1; 2]; [1; -2]; [-1; -2]]
  /\ exists M,
       iterativeDPLL 5 8 [[1; 2]; [-1; 2]; [1; -2]; [-1; -2]] {[9 := true]}
       = Some (brute_force [[1; 2]; [-1; 2]; [1; -2]; [-1; -2]], M)
       /\ (brute_force [[1; 2]; [-1; 2]; [1; -2]; [-1; -2]] = false ->
           M = {[9 := true]}).
Proof.
  split; [solve_cnf|].
  apply (iterativeDPLL_truth_table [[1; 2]; [-1; 2]; [1; -2]; [-1; -2]]
           {[9 := true]}); [solve_cnf|solve_small].
Defined.

(** X14: the two searches agree on the verdict: whenever both return on a
    formula of the data model, whatever the bounds and the initial maps,
    [DPLL] and [iterativeDPLL] answer alike. *)
Theorem DPLL_iterativeDPLL_verdict loops fuel loops' depth cnf
    assignment assignment' verdict M verdict' M' :
  valid_cnf cnf -> small_cnf cnf -> (length cnf < loops)%nat ->
  iterativeDPLL loops fuel cnf assignment = Some (verdict, M) ->
  DPLL loops' depth cnf assignment' = Some (verdict', M') ->
  verdict = verdict'.
Proof.
  intros Hvalid Hsmall Hloops Hiter HDPLL.
  destruct (iterativeDPLL_satisfiable _ _ _ _ _ _ Hvalid Hsmall Hloops Hiter)
    as [Hiff _].
  destruct (DPLL_result _ _ _ _ _ _ Hvalid Hsmall HDPLL)
    as [[_ Hsat] Hunsat].
  destruct verdict, verdict'; try done.
  - destruct (proj1 Hiff eq_refl) as [M'' HM''].
    by rewrite Hunsat in HM''.
  - assert (false = true); [|done]. apply Hiff. exists M'. by apply Hsat.
Qed.

Lemma DPLL_iterativeDPLL_verdict_witness :
  valid_cnf leaking_cnf /\ true = true.
Proof.
  split; [unfold leaking_cnf; solve_cnf|].
  eapply (DPLL_iterativeDPLL_verdict 5 5 5 5 leaking_cnf ∅ ∅);
    [unfold leaking_cnf; solve_cnf|unfold leaking_cnf; solve_small
    |unfold leaking_cnf; simpl; lia
    |vm_compute; reflexivity|vm_compute; reflexivity].
Defined.

(** ** Cyclic references, in general *)

Lemma literal_tokens_elem input x :
  x ∈ literal_tokens input ->
  exists clauseStr litStr,
    clauseStr ∈ Split (remove_spaces input) "/\"
    /\ litStr ∈ Split (Trim clauseStr "()") "\/"
    /\ Trim litStr "!" = x.
Proof.
  unfold literal_tokens, clause_tokens.
  rewrite list_elem_of_In, in_concat. intros (ts & Hts & Hx).
  apply in_map_iff in Hts as (clauseStr & <- & Hc).
  apply in_map_iff in Hx as (litStr & <- & Hl).
  exists clauseStr, litStr. by rewrite !list_elem_of_In.
Qed.

(** A formula text with a token on a reference cycle does not have
    references of bounded nesting. *)
Lemma refs_within_cycle store (on_cycle : string -> Prop) :
  (forall x, on_cycle x ->
             exists body y, Formulas store !! x = Some body
                            /\ y ∈ literal_tokens body /\ on_cycle y) ->
  forall depth input x,
    x ∈ literal_tokens input -> on_cycle x ->
    refs_within store depth input = false.
Proof.
  intros Hcycle. induction depth as [|depth IH]; intros input x Hx Hon;
    [done|].
  simpl. destruct (forallb _ _) eqn:Hall; [|done].
  rewrite forallb_forall in Hall.
  apply literal_tokens_elem in Hx as (clauseStr & litStr & Hc & Hl & Htrim).
  apply list_elem_of_In, Hall in Hc. unfold clause_ok in Hc.
  rewrite forallb_forall in Hc. apply list_elem_of_In, Hc in Hl.
  unfold token_ok in Hl. rewrite Htrim in Hl.
  destruct (Hcycle x Hon) as (body & y & Hbody & Hy & Hony).
  rewrite Hbody in Hl. by rewrite (IH body y Hy Hony) in Hl.
Qed.

Lemma parseCNF_cycle store (on_cycle : string -> Prop) input x fuel varMap :
  (forall x, on_cycle x ->
             exists body y, Formulas store !! x = Some body
                            /\ y ∈ literal_tokens body /\ on_cycle y) ->
  x ∈ literal_tokens input -> on_cycle x ->
  parseCNF fuel input varMap store = None.
Proof.
  intros Hcycle Hx Hon.
  destruct (parseCNF fuel input varMap store) as [result|] eqn:Hparse;
    [|done].
  assert (is_Some (parseCNF fuel input varMap store)) as Hsome
    by (by rewrite Hparse).
  apply parseCNF_returns in Hsome.
  by rewrite (refs_within_cycle store on_cycle Hcycle fuel input x) in Hsome.
Qed.

(** *** The rewriting parser on a formula stored as [(name)] *)

Lemma remove_spaces_app (a b : string) :
  remove_spaces (a +:+ b) = remove_spaces a +:+ remove_spaces b.
Proof.
  induction a as [|c a IH]; [done|].
  change (remove_spaces (String c (a +:+ b))
          = remove_spaces (String c a) +:+ remove_spaces b).
  simpl. destruct (Ascii.eqb c " "); [done|].
  change (String c (remove_spaces (a +:+ b))
          = String c (remove_spaces a +:+ remove_spaces b)).
  by rewrite IH.
Qed.

Lemma token_length_app (x s : string) :
  Rewriting.token_length x = String.length x ->
  Rewriting.token_length (x +:+ String ")" s) = String.length x.
Proof.
  induction x as [|c x IH]; [done|]. intros H.
  change (String c x +:+ String ")" s) with (String c (x +:+ String ")" s)).
  simpl in *. destruct (Rewriting.is_delimiter c); [done|].
  injection H as H. by rewrite IH.
Qed.

Lemma nested_name_split name k :
  nested_name name k
  = repeat_string "(" (S k) +:+ (name +:+ repeat_string ")" (S k)).
Proof.
  unfold nested_name. rewrite <- repeat_string_snoc, !string_app_assoc.
  reflexivity.
Qed.

Lemma plain_name_first name :
  plain_name name = true ->
  exists c rest,
    name = String c rest
    /\ Ascii.eqb c "("%char = false /\ Ascii.eqb c ")"%char = false
    /\ Ascii.eqb c "/"%char = false /\ Ascii.eqb c "\"%char = false
    /\ Ascii.eqb c "!"%char = false
    /\ Rewriting.token_length name = String.length name
    /\ remove_spaces name = name.
Proof.
  unfold plain_name. destruct name as [|c rest]; [done|].
  rewrite !andb_true_iff, !negb_true_iff, Nat.eqb_eq, String.eqb_eq.
  intros ((((((? & ?) & ?) & ?) & ?) & ?) & ?). exists c, rest. tauto.
Qed.

Lemma rewriting_loop_self store name fuel :
  plain_name name = true ->
  Formulas store !! name = Some ("(" +:+ name +:+ ")") ->
  forall k stack vars,
    Rewriting.loop fuel store
      {| Rewriting.input := nested_name name k; Rewriting.i := k;
         Rewriting.stack := stack; Rewriting.vars := vars |}
    = Rewriting.OutOfFuel
    /\ Rewriting.loop fuel store
         {| Rewriting.input := nested_name name k; Rewriting.i := S k;
            Rewriting.stack := stack; Rewriting.vars := vars |}
       = Rewriting.OutOfFuel.
Proof.
  intros Hplain Hstored.
  destruct (plain_name_first name Hplain)
    as (c & rest & Hname & Hc1 & Hc2 & Hc3 & Hc4 & Hc5 & Htok & _).
  induction fuel as [|fuel IH]; intros k stack vars; [done|]. split.
  - cbn [Rewriting.loop Rewriting.input Rewriting.i].
    assert (String.get k (nested_name name k) = Some "("%char) as ->.
    { unfold nested_name.
      rewrite <- (repeat_string_length "(" k) at 1.
      rewrite <- (Nat.add_0_r (String.length _)).
      by rewrite string_get_app. }
    unfold Rewriting.step. simpl. apply IH.
  - cbn [Rewriting.loop Rewriting.input Rewriting.i].
    pose proof (repeat_string_length "(" (S k)) as Hlen.
    assert (String.get (S k) (nested_name name k) = Some c) as ->.
    { rewrite nested_name_split. rewrite <- Hlen at 1.
      rewrite <- (Nat.add_0_r (String.length _)).
      rewrite string_get_app. by rewrite Hname. }
    unfold Rewriting.step. rewrite Hc1, Hc2, Hc3, Hc4, Hc5.
    cbn [Rewriting.input Rewriting.i Rewriting.stack Rewriting.vars].
    assert (Rewriting.drop_bytes (S k) (nested_name name k)
            = name +:+ repeat_string ")" (S k)) as ->.
    { rewrite nested_name_split. rewrite <- Hlen at 1. apply drop_bytes_app. }
    change (repeat_string ")" (S k)) with (String ")" (repeat_string ")" k)).
    rewrite (token_length_app name _ Htok).
    replace (S k + String.length name - S k)%nat
      with (String.length name) by lia.
    assert (String.substring (S k) (String.length name)
                             (nested_name name k) = name) as ->.
    { rewrite nested_name_split. rewrite <- Hlen at 1.
      rewrite <- (Nat.add_0_r (String.length _)).
      rewrite string_substring_app. apply string_substring_prefix. }
    rewrite Hstored.
    assert (Rewriting.take_bytes (S k) (nested_name name k)
            +:+ ("(" +:+ name +:+ ")")
            +:+ Rewriting.drop_bytes (S k + String.length name)
                  (nested_name name k)
            = nested_name name (S k)) as ->; [|apply IH].
    unfold nested_name at 3. f_equal; [|f_equal].
    + rewrite nested_name_split. unfold Rewriting.take_bytes.
      rewrite <- Hlen at 1. apply string_substring_prefix.
    + rewrite nested_name_split, <- string_app_assoc.
      replace (S k + String.length name)%nat
        with (String.length (repeat_string "(" (S k) +:+ name)).
      * apply drop_bytes_app.
      * rewrite string_app_length, Hlen. done.
Qed.

Lemma rewriting_parseCNF_self store name fuel varMap :
  plain_name name = true ->
  Formulas store !! name = Some ("(" +:+ name +:+ ")") ->
  Rewriting.parseCNF fuel ("(" +:+ name +:+ ")") varMap store
  = Rewriting.OutOfFuel.
Proof.
  intros Hplain Hstored. unfold Rewriting.parseCNF.
  destruct (plain_name_first name Hplain) as (c & rest & _ & _ & _ & _ & _
                                              & _ & _ & Hspaces).
  assert (remove_spaces ("(" +:+ name +:+ ")") = nested_name name 0) as ->.
  { change ("(" +:+ name +:+ ")") with (String "(" (name +:+ ")")).
    change (remove_spaces (String "(" (name +:+ ")")))
      with (String "(" (remove_spaces (name +:+ ")"))).
    rewrite remove_spaces_app, Hspaces. unfold nested_name.
    change (repeat_string ")" 0) with "".
    change (repeat_string "(" 0) with "".
    change ("" +:+ (("(" +:+ name +:+ ")") +:+ ""))
      with (String "(" ((name +:+ ")") +:+ "")).
    f_equal. rewrite string_app_assoc. done. }
  by rewrite (proj1 (rewriting_loop_self store name fuel Hplain Hstored
                       0 [] _)).
Qed.

(** C3, as the code has it.  Neither parser has an error result or keeps a
    set of the names it is expanding.  The parser of [satisfier.go] returns
    under no bound on the nesting of its calls when a literal token of the
    input names a stored formula on a reference cycle: a set of names each
    of whose stored texts has a literal token in the set; in particular a
    stored formula one of whose literal tokens is its own name.  The
    rewriting parser returns under no bound on its loop when it is given
    [(X)] and [X] is stored as [(X)], for every name [X] it reads as one
    token. *)
Theorem parseCNF_no_cycle_detection :
  (forall store (on_cycle : string -> Prop) input x fuel varMap,
      (forall x, on_cycle x ->
                 exists body y, Formulas store !! x = Some body
                                /\ y ∈ literal_tokens body /\ on_cycle y) ->
      x ∈ literal_tokens input -> on_cycle x ->
      parseCNF fuel input varMap store = None)
  /\ (forall store input x body fuel varMap,
         Formulas store !! x = Some body -> x ∈ literal_tokens body ->
         x ∈ literal_tokens input ->
         parseCNF fuel input varMap store = None)
  /\ (forall store name fuel varMap,
         plain_name name = true ->
         Formulas store !! name = Some ("(" +:+ name +:+ ")") ->
         Rewriting.parseCNF fuel ("(" +:+ name +:+ ")") varMap store
         = Rewriting.OutOfFuel).
Proof.
  split; [|split].
  - intros store on_cycle input x fuel varMap Hcycle Hx Hon.
    by eapply parseCNF_cycle.
  - intros store input x body fuel varMap Hbody Hself Hx.
    apply (parseCNF_cycle store (fun y => y = x) input x); [|done..].
    intros y ->. eauto.
  - intros store name fuel varMap Hplain Hstored.
    by apply rewriting_parseCNF_self.
Qed.

Lemma parseCNF_no_cycle_detection_witness :
  parseCNF 9 ("(" +:+ quoted "a" +:+ " \/ !" +:+ quoted "P" +:+ ")") ∅
           store_PQ = None
  /\ parseCNF 9 formula_X ∅ store_X = None
  /\ Rewriting.parseCNF 9 formula_X ∅ store_X = Rewriting.OutOfFuel.
Proof.
  destruct parseCNF_no_cycle_detection as (Hcycle & Hself & Hrewrite).
  split; [|split].
  - apply (Hcycle store_PQ
             (fun x => x = quoted "P" \/ x = quoted "Q") _ (quoted "P")).
    + intros x [-> | ->].
      * exists ("(" +:+ quoted "Q" +:+ ")"), (quoted "Q").
        split; [reflexivity|]. split; [|by right].
        vm_compute. apply list_elem_of_here.
      * exists ("(" +:+ quoted "P" +:+ ")"), (quoted "P").
        split; [reflexivity|]. split; [|by left].
        vm_compute. apply list_elem_of_here.
    + vm_compute. apply list_elem_of_further, list_elem_of_here.
    + by left.
  - apply (Hself store_X formula_X (quoted "X") formula_X).
    + reflexivity.
    + vm_compute. apply list_elem_of_here.
    + vm_compute. apply list_elem_of_here.
  - apply (Hrewrite store_X (quoted "X")); reflexivity.
Defined.
